(** * TimerInterval: the measurement-and-smoothing pipeline of
      [src/TimerInterval.cpp]

    The development embeds the program's functions ([doMeasure],
    [init_weights], [getResult], the loop of [tiimt_main], [ctrl_handler])
    and proves the properties the specification states about them.

    Integers are [Z] with the wrap-around of the C++ type written out.
    The type [double] is an abstract carrier with the operations the
    program uses ([Arith], [Libm]); the functions are written once over
    that interface and instantiated three times: with IEEE-754 binary64
    (Rocq's primitive floats; only the operations of [getResult] exist
    there), with the real numbers (exact arithmetic, in which the closed
    form of the Gaussian kernel is read off), and with the real numbers
    under a rounding function ([rounded]: every operation is followed by
    a rounding of bounded relative error, the functions of <cmath> are
    arbitrary within their signs and orders), in which the numerical
    statements are proved. *)

From Stdlib Require Import String Ascii.
From Stdlib Require Import ZArith List Bool Lia.
From Stdlib Require Import Sorting.Sorted Sorting.Permutation Sorting.Mergesort Orders.
From Stdlib Require Import Reals Lra.
From Stdlib Require PrimFloat SpecFloat FloatOps.
Import ListNotations.

Open Scope Z_scope.

(** ** Constants of the program *)

(** [static const size_t WINDOW_SIZE = 11;] *)
Definition WINDOW_SIZE : Z := 11.

(** [static const char *const SPINNER = "/-\\|";] *)
Definition SPINNER : list ascii := ["/"; "-"; "\"; "|"]%char.

(** [EXIT_SUCCESS] of <cstdlib>. *)
Definition EXIT_SUCCESS : Z := 0.

(** ** Machine integers *)

(** Two's-complement reading of the low [w] bits of [z]. *)
Definition wrap_signed (w : Z) (z : Z) : Z :=
  let m := z mod 2 ^ w in
  if m <? 2 ^ (w - 1) then m else m - 2 ^ w.

(** [int32_t(v)] and the result of an [int32_t] operation. *)
Definition to_int32 (z : Z) : Z := wrap_signed 32 z.

(** The result of an [int64_t] operation. *)
Definition to_int64 (z : Z) : Z := wrap_signed 64 z.

(** The range of [uint32_t], the type of [filterSize]. *)
Definition is_uint32 (n : Z) : Prop := 0 <= n < 2 ^ 32.

(** ** Vectors updated by index *)

(** [v[i] = x] on a [std::vector]; the program only writes inside the
    vector, an index past the end leaves the list as it is. *)
Fixpoint vec_set {A : Type} (i : nat) (x : A) (v : list A) : list A :=
  match v, i with
  | [], _ => []
  | _ :: t, O => x :: t
  | h :: t, S j => h :: vec_set j x t
  end.

(** ** The external collaborators *)

(** What the operating system answers.  [qpc k] is the [k]-th call of
    [QueryPerformanceCounter]: [Some v] when it succeeds with
    [QuadPart = v], [None] when it fails.  [qpf] is the one call of
    [QueryPerformanceFrequency].  [realtime_ok j] tells whether the request
    for [REALTIME_PRIORITY_CLASS] of iteration [j] is granted. *)
Record Env : Type := {
  qpc : nat -> option Z;
  qpf : option Z;
  realtime_ok : nat -> bool
}.

(** [getFrequency] *)
Definition getFrequency (env : Env) : Z :=
  match qpf env with
  | Some v => v
  | None => -1
  end.

(** What the program has asked of the operating system so far: the number
    of clock queries and of completed [Sleep(1)] calls. *)
Record os_state : Type := {
  queries : nat;
  sleeps : nat
}.

(** [getTimerValue] *)
Definition getTimerValue (env : Env) (os : os_state) : Z * os_state :=
  (match qpc env (queries os) with
   | Some v => v
   | None => -1
   end,
   {| queries := S (queries os); sleeps := sleeps os |}).

(** [Sleep(1)] *)
Definition Sleep1 (os : os_state) : os_state :=
  {| queries := queries os; sleeps := S (sleeps os) |}.

(** ** The sample estimator *)

Module ZOrder <: TotalLeBool.
Definition t := Z.
Definition leb := Z.leb.
Definition leb_total (x y : Z) : leb x y = true \/ leb y x = true :=
  match Z.le_ge_cases x y with
  | or_introl H => or_introl (proj2 (Z.leb_le x y) H)
  | or_intror H => or_intror (proj2 (Z.leb_le y x) H)
  end.
End ZOrder.

(** [std::sort] on [int64_t] with the default [<]. *)
Module ZSort := Sort ZOrder.

(** The [for] loop of [doMeasure], [cnt] iterations from index [i]: two
    clock readings around [Sleep(1)], the difference stored in
    [delay[i]]. *)
Fixpoint measure_loop (env : Env) (cnt : nat) (i : nat) (delay : list Z) (os : os_state)
  : list Z * os_state :=
  match cnt with
  | O => (delay, os)
  | S c =>
      let (timeBeg, os1) := getTimerValue env os in
      let os2 := Sleep1 os1 in
      let (timeEnd, os3) := getTimerValue env os2 in
      measure_loop env c (S i) (vec_set i (to_int64 (timeEnd - timeBeg)) delay) os3
  end.

(** Lines 74-75: [std::sort(delay.begin(), delay.end()); return
    delay[delay.size() / 2];] *)
Definition sort_and_pick (delay : list Z) : Z :=
  nth (Nat.div (length delay) 2) (ZSort.sort delay) 0.

(** [doMeasure] *)
Definition doMeasure (env : Env) (os : os_state) : Z * os_state :=
  let (delay, os') := measure_loop env 5 0 (repeat 0 5) os in
  (sort_and_pick delay, os').

(** The reading of the [j]-th clock query. *)
Definition reading (env : Env) (j : nat) : Z :=
  match qpc env j with
  | Some v => v
  | None => -1
  end.

(** The five raw tick-deltas measured from clock query [k] on. *)
Definition raw_delta (env : Env) (k : nat) (i : nat) : Z :=
  to_int64 (reading env (k + 2 * i + 1) - reading env (k + 2 * i)).

Definition raw_deltas (env : Env) (k : nat) : list Z :=
  map (raw_delta env k) (seq 0 5).

(** A clock whose successive readings are 0,5, 10,11, 20,29, 30,33, 40,47:
    the deltas are 5, 1, 9, 3, 7. *)
Definition example_clock : Env :=
  {| qpc := fun k => nth_error [0; 5; 10; 11; 20; 29; 30; 33; 40; 47] k;
     qpf := Some 1000000000;
     realtime_ok := fun _ => true |}.

(** ** The arithmetic of [double] *)

(** The operations on [double] that [getResult] uses.  [d_of_int] is the
    conversion of an integer to [double]; it also writes the integer-valued
    literals ([0.0], [1.0], [2.0], [3.0], [1000.0]). *)
Record Arith (D : Type) : Type := {
  d_of_int : Z -> D;
  d_add : D -> D -> D;
  d_sub : D -> D -> D;
  d_mul : D -> D -> D;
  d_div : D -> D -> D;
  d_neg : D -> D
}.

(** What [init_weights] takes from <cmath>, and the constant [PI].
    [d_pow2 x] is [pow(x, 2.0)], the only way the program calls [pow]. *)
Record Libm (D : Type) : Type := {
  d_sqrt : D -> D;
  d_exp : D -> D;
  d_pow2 : D -> D;
  d_PI : D
}.

Arguments d_of_int {D} _ _.
Arguments d_add {D} _ _ _.
Arguments d_sub {D} _ _ _.
Arguments d_mul {D} _ _ _.
Arguments d_div {D} _ _ _.
Arguments d_neg {D} _ _.
Arguments d_sqrt {D} _ _.
Arguments d_exp {D} _ _.
Arguments d_pow2 {D} _ _.
Arguments d_PI {D} _.

(** What a call returns: a value, or the [std::runtime_error] thrown. *)
Inductive outcome (A : Type) : Type :=
| Ok (a : A)
| Throw (what : string).

Arguments Ok {A} a.
Arguments Throw {A} what.

Declare Scope dbl_scope.
Delimit Scope dbl_scope with dbl.

Section Program.

Context {D : Type} (ar : Arith D) (lm : Libm D).

Local Notation "x + y" := (d_add ar x y) : dbl_scope.
Local Notation "x - y" := (d_sub ar x y) : dbl_scope.
Local Notation "x * y" := (d_mul ar x y) : dbl_scope.
Local Notation "x / y" := (d_div ar x y) : dbl_scope.
Local Notation "- x" := (d_neg ar x) : dbl_scope.
Local Notation "'#' z" := (d_of_int ar z) (at level 1, format "'#' z") : dbl_scope.

(** *** Weight initialisation *)

(** The first [for] loop of [init_weights] (lines 94-99), [cnt]
    iterations from index [i]; the state is the vector and
    [totalWeight]. *)
Fixpoint fill_loop (c1 c2 : D) (offset : Z) (cnt : nat) (i : Z) (st : list D * D)
  : list D * D :=
  match cnt with
  | O => st
  | S c =>
      let (weights, totalWeight) := st in
      let x := to_int32 (to_int32 i - to_int32 offset) in
      let weights' :=
        vec_set (Z.to_nat i) (c1 * d_exp lm (- (d_pow2 lm #x / c2)))%dbl weights in
      fill_loop c1 c2 offset c (i + 1)
        (weights', (totalWeight + nth (Z.to_nat i) weights' #0)%dbl)
  end.

(** The second [for] loop (lines 102-105): [weights[i] *= adjust]. *)
Fixpoint scale_loop (adjust : D) (cnt : nat) (i : Z) (weights : list D) : list D :=
  match cnt with
  | O => weights
  | S c =>
      scale_loop adjust c (i + 1)
        (vec_set (Z.to_nat i) (nth (Z.to_nat i) weights #0 * adjust)%dbl weights)
  end.

(** [sigma] of line 85. *)
Definition sigma_of (filterSize : Z) : D :=
  ((((#filterSize / #2) - #1) / #3) + (#1 / #3))%dbl.

(** [init_weights]; [filterSize] is a [uint32_t]. *)
Definition init_weights (filterSize : Z) : outcome (list D) :=
  if (filterSize <? 1) || negb (filterSize mod 2 =? 1) then
    Throw "Filter size must be a positive and odd value!"
  else
    let sigma := sigma_of filterSize in
    let weights := repeat (#0)%dbl (Z.to_nat filterSize) in
    let totalWeight := (#0)%dbl in
    let offset := filterSize / 2 in
    let c1 := (#1 / (sigma * d_sqrt lm (#2 * d_PI lm)))%dbl in
    let c2 := (#2 * d_pow2 lm sigma)%dbl in
    let (weights1, totalWeight1) :=
      fill_loop c1 c2 offset (Z.to_nat filterSize) 0 (weights, totalWeight) in
    let adjust := (#1 / totalWeight1)%dbl in
    Ok (scale_loop adjust (Z.to_nat filterSize) 0 weights1).

(** The closed form of what the two loops leave in the vector: the
    value written at index [j] by the first loop, the vector after the
    first loop, and the vector after the second. *)
Definition kernel_at (c1 c2 : D) (offset : Z) (j : nat) : D :=
  (c1 * d_exp lm (- (d_pow2 lm #(to_int32 (to_int32 (Z.of_nat j) - to_int32 offset)) / c2)))%dbl.

Definition raw_weights (filterSize : Z) : list D :=
  let sigma := sigma_of filterSize in
  map (kernel_at (#1 / (sigma * d_sqrt lm (#2 * d_PI lm)))%dbl
                 (#2 * d_pow2 lm sigma)%dbl
                 (filterSize / 2))
      (seq 0 (Z.to_nat filterSize)).

Definition normalized_weights (filterSize : Z) : list D :=
  let totalWeight := fold_left (d_add ar) (raw_weights filterSize) (#0)%dbl in
  map (fun w => (w * (#1 / totalWeight))%dbl) (raw_weights filterSize).

(** *** The smoothing filter *)

(** The loop of [getResult] over the deque, oldest entry first; [k] is
    the running index into [weights].  [None] is a read of [weights[k]]
    past the end of the vector, which C++ leaves undefined. *)
Fixpoint getResult_loop (weights : list D) (iter : list Z) (k : nat) (total : D)
  : option D :=
  match iter with
  | [] => Some total
  | x :: rest =>
      match nth_error weights k with
      | Some w => getResult_loop weights rest (S k) (total + #x * w)%dbl
      | None => None
      end
  end.

(** [getResult] *)
Definition getResult (results : list Z) (frequency : Z) (weights : list D) : option D :=
  match getResult_loop weights results 0 (#0)%dbl with
  | Some total => Some ((total / #frequency) * #1000)%dbl
  | None => None
  end.

(** What the specification says [compute] returns: the window and the
    weights paired by position, the products accumulated from the oldest
    entry to the newest, divided by the frequency, times 1000. *)
Definition weighted_sum (window : list Z) (weights : list D) : D :=
  fold_left (fun acc p => (acc + #(fst p) * snd p)%dbl) (combine window weights) (#0)%dbl.

Definition compute_spec (window : list Z) (weights : list D) (frequency : Z) : D :=
  ((weighted_sum window weights / #frequency) * #1000)%dbl.

End Program.

(** ** The sampling loop *)

Inductive priority_class : Type :=
| REALTIME_PRIORITY_CLASS
| HIGH_PRIORITY_CLASS.

(** What the program does to the outside, in order.  [EPrintResult]
    is the line [Current Timer Interval: ...] with the value and the spinner
    character printed; it also records the window [getResult] was called
    on. *)
Inductive event (D : Type) : Type :=
| EPrintBanner
| EPrintInitializing
| ESetPriority (c : priority_class)
| EPrintResult (window : list Z) (result : D) (spin : ascii)
| EPrintExit.

Arguments EPrintBanner {D}.
Arguments EPrintInitializing {D}.
Arguments ESetPriority {D} c.
Arguments EPrintResult {D} window result spin.
Arguments EPrintExit {D}.

(** The locals of [tiimt_main] and the state of the outside. *)
Record loop_state (D : Type) : Type := {
  frequency : Z;
  weights : list D;
  spinner : Z;
  results : list Z;
  os : os_state;
  iteration : nat;
  out : list (event D)
}.

Arguments frequency {D} _.
Arguments weights {D} _.
Arguments spinner {D} _.
Arguments results {D} _.
Arguments os {D} _.
Arguments iteration {D} _.
Arguments out {D} _.

(** Lines 150-153: [while(results.size() >= WINDOW_SIZE) results.pop_front();] *)
Fixpoint trim (results : list Z) : list Z :=
  match results with
  | [] => []
  | x :: rest =>
      if WINDOW_SIZE <=? Z.of_nat (length results) then trim rest else x :: rest
  end.

(** Lines 150-155 together: make room, then [results.push_back(sample)]. *)
Definition push_sample (results : list Z) (sample : Z) : list Z :=
  trim results ++ [sample].

(** Where the thread of [tiimt_main] stands. *)
Inductive pcs : Type :=
| PStart
| PHead
| PPriority
| PTrim
| PMeasureBeg (i : nat) (delay : list Z)
| PMeasureSleep (i : nat) (delay : list Z) (timeBeg : Z)
| PMeasureEnd (i : nat) (delay : list Z) (timeBeg : Z)
| PSort (delay : list Z)
| PShow
| PExit
| PReturned (code : Z)
| PThrown (what : string)
| PUndefined.

Record machine (D : Type) : Type := {
  pc : pcs;
  g_bRunning : bool;
  locals : loop_state D
}.

Arguments pc {D} _.
Arguments g_bRunning {D} _.
Arguments locals {D} _.

(** [ctrl_handler]: [g_bRunning = false; return TRUE;] *)
Definition ctrl_handler {D : Type} (m : machine D) : machine D :=
  {| pc := pc m; g_bRunning := false; locals := locals m |}.

Section Loop.

Context {D : Type} (ar : Arith D) (lm : Libm D) (env : Env).

(** Lines 145-148. *)
Definition set_priority (s : loop_state D) : loop_state D :=
  {| frequency := frequency s; weights := weights s; spinner := spinner s;
     results := results s; os := os s;
     iteration := S (iteration s);
     out := out s ++
            (if realtime_ok env (iteration s)
             then [ESetPriority REALTIME_PRIORITY_CLASS]
             else [ESetPriority REALTIME_PRIORITY_CLASS;
                   ESetPriority HIGH_PRIORITY_CLASS]) |}.

Definition with_results (s : loop_state D) (r : list Z) (o : os_state) : loop_state D :=
  {| frequency := frequency s; weights := weights s; spinner := spinner s;
     results := r; os := o; iteration := iteration s; out := out s |}.

(** Lines 157-162; [None] when [getResult] reads past the weights. *)
Definition show (s : loop_state D) : option (loop_state D) :=
  if Z.of_nat (length (results s)) =? WINDOW_SIZE then
    match getResult ar (results s) (frequency s) (weights s) with
    | Some result =>
        Some {| frequency := frequency s; weights := weights s;
                spinner := (spinner s + 1) mod 4;
                results := results s; os := os s; iteration := iteration s;
                out := out s ++
                       [EPrintResult (results s) result
                          (nth (Z.to_nat (spinner s)) SPINNER "000"%char)] |}
    | None => None
    end
  else Some s.

(** One pass through the body of [while(g_bRunning)], lines 145-162. *)
Definition loop_body (s : loop_state D) : option (loop_state D) :=
  let s1 := set_priority s in
  let (sample, os') := doMeasure env (os s1) in
  show (with_results s1 (push_sample (results s1) sample) os').

(** Lines 135-141: the state in which the loop is entered, or the
    exception of [init_weights]. *)
Definition startup : outcome (loop_state D) :=
  match init_weights ar lm WINDOW_SIZE with
  | Ok ws =>
      Ok {| frequency := getFrequency env; weights := ws; spinner := 0;
            results := []; os := {| queries := 0; sleeps := 0 |};
            iteration := 0;
            out := [EPrintBanner; EPrintInitializing] |}
  | Throw what => Throw what
  end.

(** [n] passes through the loop body. *)
Fixpoint iterations (n : nat) (s : loop_state D) : option (loop_state D) :=
  match n with
  | O => Some s
  | S n' =>
      match loop_body s with
      | Some s' => iterations n' s'
      | None => None
      end
  end.

(** The states the loop can be in at the top of an iteration. *)
Inductive reachable : loop_state D -> Prop :=
| reach_start : forall s, startup = Ok s -> reachable s
| reach_step : forall s s', reachable s -> loop_body s = Some s' -> reachable s'.

(** What holds at the top of every iteration. *)
Definition loop_invariant (s : loop_state D) : Prop :=
  length (weights s) = 11%nat /\
  (length (results s) <= 11)%nat /\
  sleeps (os s) = (5 * iteration s)%nat /\
  forall window result spin,
    In (EPrintResult window result spin) (out s) ->
    length window = 11%nat /\
    getResult ar window (frequency s) (weights s) = Some result.

(** *** The loop, one thread step at a time *)

Definition at_pc (p : pcs) (m : machine D) (s : loop_state D) : machine D :=
  {| pc := p; g_bRunning := g_bRunning m; locals := s |}.

Definition empty_locals : loop_state D :=
  {| frequency := 0; weights := []; spinner := 0; results := [];
     os := {| queries := 0; sleeps := 0 |}; iteration := 0; out := [] |}.

(** The program before [tiimt_main] runs; [g_bRunning] is initialised to
    [true]. *)
Definition boot : machine D :=
  {| pc := PStart; g_bRunning := true; locals := empty_locals |}.

(** Line 165: the notice printed after the loop. *)
Definition print_exit (s : loop_state D) : loop_state D :=
  {| frequency := frequency s; weights := weights s; spinner := spinner s;
     results := results s; os := os s; iteration := iteration s;
     out := out s ++ [EPrintExit] |}.

(** The state in which the loop is entered. *)
Definition start_state : loop_state D :=
  match startup with
  | Ok s => s
  | Throw _ => empty_locals
  end.

(** One step of the thread of [tiimt_main]. *)
Definition step (m : machine D) : machine D :=
  let s := locals m in
  match pc m with
  | PStart =>
      match startup with
      | Ok s0 => at_pc PHead m s0
      | Throw what => at_pc (PThrown what) m s
      end
  | PHead => if g_bRunning m then at_pc PPriority m s else at_pc PExit m s
  | PPriority => at_pc PTrim m (set_priority s)
  | PTrim => at_pc (PMeasureBeg 0 (repeat 0 5)) m (with_results s (trim (results s)) (os s))
  | PMeasureBeg i delay =>
      let (timeBeg, os1) := getTimerValue env (os s) in
      at_pc (PMeasureSleep i delay timeBeg) m (with_results s (results s) os1)
  | PMeasureSleep i delay timeBeg =>
      at_pc (PMeasureEnd i delay timeBeg) m (with_results s (results s) (Sleep1 (os s)))
  | PMeasureEnd i delay timeBeg =>
      let (timeEnd, os3) := getTimerValue env (os s) in
      let delay' := vec_set i (to_int64 (timeEnd - timeBeg)) delay in
      if (S i <? length delay')%nat
      then at_pc (PMeasureBeg (S i) delay') m (with_results s (results s) os3)
      else at_pc (PSort delay') m (with_results s (results s) os3)
  | PSort delay =>
      at_pc PShow m (with_results s (results s ++ [sort_and_pick delay]) (os s))
  | PShow =>
      match show s with
      | Some s' => at_pc PHead m s'
      | None => at_pc PUndefined m s
      end
  | PExit => at_pc (PReturned EXIT_SUCCESS) m (print_exit s)
  | PReturned _ | PThrown _ | PUndefined => m
  end.

(** [n] thread steps. *)
Fixpoint steps (n : nat) (m : machine D) : machine D :=
  match n with
  | O => m
  | S n' => steps n' (step m)
  end.

(** The run in which the console control handler fires once, after the
    thread has made [t] steps, and the thread then makes [fuel] more. *)
Definition run_with_signal (t fuel : nat) : machine D :=
  steps fuel (ctrl_handler (steps t boot)).

(** [tiimt_main] as a whole, in the run in which the loop head reads
    [g_bRunning] as [true] [n] times and then as [false]: the value
    returned with the final state, or the exception that leaves the
    function; [None] when an iteration reads past the weights. *)
Definition tiimt_main (n : nat) : option (outcome (Z * loop_state D)) :=
  match startup with
  | Ok s0 =>
      match iterations n s0 with
      | Some s => Some (Ok (EXIT_SUCCESS, print_exit s))
      | None => None
      end
  | Throw what => Some (Throw what)
  end.

(** [main]: the value of [ret] it returns, when [tiimt_main] returned. *)
Definition main_exit_code (m : machine D) : option Z :=
  match pc m with
  | PReturned code => Some code
  | _ => None
  end.

End Loop.

(** ** The two interpretations of [double] *)

(** IEEE-754 binary64, rounding to nearest even.  The conversion of an
    [int64_t] rounds the integer to the nearest [double]. *)
Definition b64_of_int (z : Z) : PrimFloat.float :=
  FloatOps.SF2Prim (SpecFloat.binary_normalize 53 1024 z 0 false).

Definition b64 : Arith PrimFloat.float := {|
  d_of_int := b64_of_int;
  d_add := PrimFloat.add;
  d_sub := PrimFloat.sub;
  d_mul := PrimFloat.mul;
  d_div := PrimFloat.div;
  d_neg := PrimFloat.opp
|}.

(** The binary64 weights 0.25 and 0.75. *)
Definition example_weights_b64 : list PrimFloat.float :=
  [d_div b64 (d_of_int b64 1) (d_of_int b64 4);
   d_div b64 (d_of_int b64 3) (d_of_int b64 4)].

(** The real numbers: every operation exact. *)
Definition real : Arith R := {|
  d_of_int := IZR;
  d_add := Rplus;
  d_sub := Rminus;
  d_mul := Rmult;
  d_div := Rdiv;
  d_neg := Ropp
|}.

(** [static const double PI = 3.1415926535897932384626433832795028842;] *)
Definition PI_literal : R := 3.1415926535897932384626433832795028842%R.

Definition real_libm : Libm R := {|
  d_sqrt := sqrt;
  d_exp := exp;
  d_pow2 := fun x => (x * x)%R;
  d_PI := PI_literal
|}.

(** The Gaussian of the specification at offset [x] from the centre:
    [exp(-x^2 / (2 sigma^2))]. *)
Definition gaussian (sigma : R) (x : Z) : R :=
  exp (- (IZR x * IZR x) / (2 * (sigma * sigma))).

(** [c1] and [totalWeight] of [init_weights] over the reals. *)
Definition real_c1 (n : Z) : R :=
  (1 / (sigma_of real n * sqrt (2 * PI_literal)))%R.

Definition real_total (n : Z) : R :=
  fold_left Rplus (raw_weights real real_libm n) 0%R.

(** ** Further definitions used by the statements below *)

(** A host without a usable high-resolution counter: every query fails. *)
Definition dead_clock : Env :=
  {| qpc := fun _ => None; qpf := None; realtime_ok := fun _ => false |}.

(** The sample of iteration [j] of the loop: the five deltas of the clock
    queries [10 j .. 10 j + 9], sorted, the middle one. *)
Definition sample_at (env : Env) (j : nat) : Z :=
  sort_and_pick (raw_deltas env (10 * j)).

(** The value the first loop of [init_weights] computes for the signed
    offset [x] from the middle index, before normalisation. *)
Definition unscaled_weight {D : Type} (ar : Arith D) (lm : Libm D) (filterSize : Z) (x : Z) : D :=
  let sigma := sigma_of ar filterSize in
  d_mul ar
    (d_div ar (d_of_int ar 1)
       (d_mul ar sigma (d_sqrt lm (d_mul ar (d_of_int ar 2) (d_PI lm)))))
    (d_exp lm
       (d_neg ar
          (d_div ar (d_pow2 lm (d_of_int ar x))
             (d_mul ar (d_of_int ar 2) (d_pow2 lm sigma))))).

(** The spinner characters of the result lines printed, in order. *)
Fixpoint printed_spins {D : Type} (o : list (event D)) : list ascii :=
  match o with
  | [] => []
  | EPrintResult _ _ c :: o' => c :: printed_spins o'
  | _ :: o' => printed_spins o'
  end.

(** The priority classes requested, in order. *)
Fixpoint priority_requests {D : Type} (o : list (event D)) : list priority_class :=
  match o with
  | [] => []
  | ESetPriority c :: o' => c :: priority_requests o'
  | _ :: o' => priority_requests o'
  end.

(** The run in which the handler fires before thread step [i] whenever
    [fires i] holds, any number of times; [n] thread steps from step
    index [i]. *)
Fixpoint run_schedule {D : Type} (ar : Arith D) (lm : Libm D) (env : Env)
    (fires : nat -> bool) (n : nat) (i : nat) (m : machine D) : machine D :=
  match n with
  | O => m
  | S n' =>
      run_schedule ar lm env fires n' (S i)
        (step ar lm env (if fires i then ctrl_handler m else m))
  end.

(** The thread has neither left [tiimt_main] by an exception nor read
    outside a vector. *)
Definition healthy {D : Type} (m : machine D) : Prop :=
  match pc m with
  | PThrown _ | PUndefined => False
  | _ => True
  end.

(** ** Arithmetic that rounds *)

(** [double] as the real numbers it represents: every operation is the
    exact one followed by the rounding [rnd] (negation is exact), the
    conversion of an integer rounds, and so does the literal [PI].  The
    functions of <cmath> are any three functions [ex], [sq], [pw] for
    [exp], [sqrt] and [pow(., 2.0)]. *)
Definition rounded (rnd : R -> R) : Arith R := {|
  d_of_int := fun z => rnd (IZR z);
  d_add := fun x y => rnd (x + y)%R;
  d_sub := fun x y => rnd (x - y)%R;
  d_mul := fun x y => rnd (x * y)%R;
  d_div := fun x y => rnd (x / y)%R;
  d_neg := Ropp
|}.

Definition rounded_libm (rnd ex sq pw : R -> R) : Libm R := {|
  d_sqrt := sq;
  d_exp := ex;
  d_pow2 := pw;
  d_PI := rnd PI_literal
|}.

(** What is asked of the rounding: a relative error of at most [u] on
    every operation, [u] not above 2^-53, the unit roundoff of binary64
    rounding to nearest; it keeps the order and commutes with the sign.
    (Binary64 meets the error bound on every value that neither overflows
    nor falls into the subnormal range.) *)
Record rounding (rnd : R -> R) (u : R) : Prop := {
  unit_roundoff : (0 <= u <= / 9007199254740992)%R;
  relative_error : forall x : R, (Rabs (rnd x - x) <= u * Rabs x)%R;
  rnd_monotone : forall x y : R, (x <= y)%R -> (rnd x <= rnd y)%R;
  rnd_odd : forall x : R, rnd (- x)%R = (- rnd x)%R
}.

(** What is asked of <cmath>: [exp] is positive and keeps the order,
    [sqrt] of a positive number is positive, [pow(x, 2.0)] does not see the
    sign of [x], grows with its size and is positive for positive [x]. *)
Record libm_sane (ex sq pw : R -> R) : Prop := {
  ex_positive : forall x : R, (0 < ex x)%R;
  ex_monotone : forall x y : R, (x <= y)%R -> (ex x <= ex y)%R;
  sq_positive : forall x : R, (0 < x)%R -> (0 < sq x)%R;
  pw_even : forall x : R, pw (- x)%R = pw x;
  pw_monotone : forall x y : R, (0 <= x <= y)%R -> (pw x <= pw y)%R;
  pw_positive : forall x : R, (0 < x)%R -> (0 < pw x)%R
}.

(** [x] is [y] up to [k] roundings: between [(1-u)^k y] and
    [y / (1-u)^k]. *)
Definition approx (u : R) (k : nat) (x y : R) : Prop :=
  ((1 - u) ^ k * y <= x <= y / (1 - u) ^ k)%R.

(** [totalWeight] and [adjust] of [init_weights] in an arithmetic that
    rounds, and the exact sum of the values that [totalWeight]
    accumulates. *)
Definition rounded_total (rnd ex sq pw : R -> R) (n : Z) : R :=
  fold_left (d_add (rounded rnd))
    (map (fun k : nat =>
            unscaled_weight (rounded rnd) (rounded_libm rnd ex sq pw) n (Z.of_nat k - n / 2))
       (seq 0 (Z.to_nat n)))
    (d_of_int (rounded rnd) 0).

Definition rounded_adjust (rnd ex sq pw : R -> R) (n : Z) : R :=
  d_div (rounded rnd) (d_of_int (rounded rnd) 1) (rounded_total rnd ex sq pw n).

Definition unscaled_sum (rnd ex sq pw : R -> R) (n : Z) : R :=
  fold_left Rplus
    (map (fun k : nat =>
            unscaled_weight (rounded rnd) (rounded_libm rnd ex sq pw) n (Z.of_nat k - n / 2))
       (seq 0 (Z.to_nat n)))
    0%R.

(** An arithmetic in which every result is off: each operation returns
    the exact value times [1 + 2^-60]. *)
Definition inflate (x : R) : R := (x * (1 + / 1152921504606846976))%R.


(** ** Theorems: the sample estimator *)

Lemma measure_loop_5 (env : Env) (os : os_state) :
  measure_loop env 5 0 (repeat 0 5) os =
  (raw_deltas env (queries os),
   {| queries := queries os + 10; sleeps := sleeps os + 5 |}).
Proof.
  destruct os as [k sl].
  unfold raw_deltas, raw_delta, reading.
  cbn [measure_loop repeat seq map getTimerValue Sleep1 queries sleeps vec_set].
  replace (k + 2 * 0 + 1)%nat with (S k) by lia.
  replace (k + 2 * 0)%nat with k by lia.
  replace (k + 2 * 1 + 1)%nat with (S (S (S k))) by lia.
  replace (k + 2 * 1)%nat with (S (S k)) by lia.
  replace (k + 2 * 2 + 1)%nat with (S (S (S (S (S k))))) by lia.
  replace (k + 2 * 2)%nat with (S (S (S (S k)))) by lia.
  replace (k + 2 * 3 + 1)%nat with (S (S (S (S (S (S (S k))))))) by lia.
  replace (k + 2 * 3)%nat with (S (S (S (S (S (S k)))))) by lia.
  replace (k + 2 * 4 + 1)%nat with (S (S (S (S (S (S (S (S (S k))))))))) by lia.
  replace (k + 2 * 4)%nat with (S (S (S (S (S (S (S (S k)))))))) by lia.
  replace (k + 10)%nat with (S (S (S (S (S (S (S (S (S (S k)))))))))) by lia.
  replace (sl + 5)%nat with (S (S (S (S (S sl))))) by lia.
  reflexivity.
Qed.

Lemma sorted5_shape (l : list Z) :
  length l = 5%nat -> Sorted (fun x y => is_true (x <=? y)) l ->
  exists a b c d e, l = [a; b; c; d; e] /\ a <= b /\ b <= c /\ c <= d /\ d <= e.
Proof.
  intros Hlen Hs.
  destruct l as [|a [|b [|c [|d [|e [|f l]]]]]]; try discriminate.
  exists a, b, c, d, e. split; [reflexivity|].
  repeat match goal with
         | H : Sorted _ (_ :: _) |- _ => inversion H; clear H; subst
         | H : HdRel _ _ (_ :: _) |- _ => inversion H; clear H; subst
         end.
  unfold is_true in *. rewrite Z.leb_le in *. lia.
Qed.

Lemma filter_length_perm (f : Z -> bool) (l l' : list Z) :
  Permutation l l' -> length (filter f l) = length (filter f l').
Proof.
  induction 1; cbn; try congruence.
  - destruct (f x); cbn; congruence.
  - destruct (f x), (f y); reflexivity.
Qed.

(** C3. [doMeasure] takes exactly five raw tick-deltas (two clock readings
    around each of five sleeps), sorts them in ascending order and returns
    the element in the middle, the median: at least three of the five
    deltas are below or equal to it and at least three are above or equal
    to it.  On the deltas 5, 1, 9, 3, 7 it returns 5. *)
Theorem doMeasure_returns_median :
  (forall (env : Env) (os : os_state),
      let ds := raw_deltas env (queries os) in
      let m := fst (doMeasure env os) in
      length ds = 5%nat /\
      sleeps (snd (doMeasure env os)) = (sleeps os + 5)%nat /\
      queries (snd (doMeasure env os)) = (queries os + 10)%nat /\
      Sorted Z.le (ZSort.sort ds) /\
      Permutation ds (ZSort.sort ds) /\
      m = nth 2 (ZSort.sort ds) 0 /\
      (3 <= length (filter (fun x => Z.leb x m) ds))%nat /\
      (3 <= length (filter (fun x => Z.leb m x) ds))%nat) /\
  raw_deltas example_clock 0 = [5; 1; 9; 3; 7] /\
  sort_and_pick [5; 1; 9; 3; 7] = 5 /\
  fst (doMeasure example_clock {| queries := 0; sleeps := 0 |}) = 5.
Proof.
  split; [|repeat split; reflexivity].
  intros env os ds m.
  assert (Hlen : length ds = 5%nat) by reflexivity.
  assert (Hperm : Permutation ds (ZSort.sort ds)) by apply ZSort.Permuted_sort.
  assert (Hlen' : length (ZSort.sort ds) = 5%nat)
    by (rewrite <- (Permutation_length Hperm); exact Hlen).
  destruct (sorted5_shape _ Hlen' (ZSort.Sorted_sort ds))
    as (a & b & c & d & e & Hshape & Hab & Hbc & Hcd & Hde).
  assert (Hm : m = nth 2 (ZSort.sort ds) 0).
  { unfold m, doMeasure. rewrite measure_loop_5. cbn [fst].
    unfold sort_and_pick. fold ds. rewrite Hlen. reflexivity. }
  unfold doMeasure. rewrite measure_loop_5. cbn [snd sleeps queries].
  repeat split; try reflexivity; try assumption.
  - rewrite Hshape. repeat constructor; assumption.
  - rewrite (filter_length_perm _ _ _ Hperm), Hm, Hshape. cbn [nth filter].
    replace (a <=? c) with true by (symmetry; apply Z.leb_le; lia).
    replace (b <=? c) with true by (symmetry; apply Z.leb_le; lia).
    rewrite Z.leb_refl. cbn [length].
    destruct (d <=? c), (e <=? c); cbn [length]; lia.
  - rewrite (filter_length_perm _ _ _ Hperm), Hm, Hshape. cbn [nth filter].
    replace (c <=? d) with true by (symmetry; apply Z.leb_le; lia).
    replace (c <=? e) with true by (symmetry; apply Z.leb_le; lia).
    rewrite Z.leb_refl.
    destruct (c <=? a), (c <=? b); cbn [length]; lia.
Qed.

(** ** Theorems: the sample window *)

Lemma trim_skipn (l : list Z) : trim l = skipn (length l - 10) l.
Proof.
  induction l as [|x rest IH]; [reflexivity|].
  cbn [trim]. unfold WINDOW_SIZE.
  destruct (Z.leb_spec 11 (Z.of_nat (length (x :: rest)))) as [H|H]; cbn [length] in H |- *.
  - rewrite IH. replace (S (length rest) - 10)%nat with (S (length rest - 10)) by lia.
    reflexivity.
  - replace (S (length rest) - 10)%nat with 0%nat by lia. reflexivity.
Qed.

Lemma trim_length (l : list Z) : (length (trim l) <= 10)%nat.
Proof. rewrite trim_skipn, length_skipn. lia. Qed.

Lemma push_sample_length (w : list Z) (x : Z) :
  (length (push_sample w x) <= 11)%nat.
Proof.
  unfold push_sample. rewrite length_app. cbn [length].
  pose proof (trim_length w). lia.
Qed.

Lemma push_all_skipn (xs : list Z) :
  fold_left push_sample xs [] = skipn (length xs - 11) xs.
Proof.
  induction xs as [|x xs IH] using rev_ind; [reflexivity|].
  rewrite fold_left_app. cbn [fold_left]. rewrite IH.
  unfold push_sample. rewrite trim_skipn, skipn_skipn, length_skipn, length_app.
  cbn [length]. rewrite skipn_app.
  replace (length xs + 1 - 11 - length xs)%nat with 0%nat by lia.
  cbn [skipn]. f_equal. f_equal. lia.
Qed.

(** C4. The window is a FIFO of capacity 11: after any push it holds at
    most 11 entries; a push into a window that is not full appends; a push
    into a full window drops the oldest entry and appends the new delay at
    the newest position; and after pushing any sequence into the empty
    window the window holds the last 11 items pushed, in their order, so
    after 12 pushes it holds all but the first. *)
Theorem window_is_fifo (xs w : list Z) (x : Z) :
  (length (push_sample w x) <= 11)%nat /\
  ((length w < 11)%nat -> push_sample w x = w ++ [x]) /\
  (length w = 11%nat -> push_sample w x = tl w ++ [x]) /\
  (length (fold_left push_sample xs []) <= 11)%nat /\
  fold_left push_sample xs [] = skipn (length xs - 11) xs /\
  (length xs = 12%nat -> fold_left push_sample xs [] = tl xs).
Proof.
  repeat split.
  - apply push_sample_length.
  - intros H. unfold push_sample. rewrite trim_skipn.
    replace (length w - 10)%nat with 0%nat by lia. reflexivity.
  - intros H. unfold push_sample. rewrite trim_skipn, H.
    destruct w; [discriminate|reflexivity].
  - rewrite push_all_skipn, length_skipn. lia.
  - apply push_all_skipn.
  - intros H. rewrite push_all_skipn, H.
    destruct xs; [discriminate|reflexivity].
Qed.

Lemma window_is_fifo_witness :
  (length [1; 2; 3] < 11)%nat /\
  length [1; 2; 3; 4; 5; 6; 7; 8; 9; 10; 11; 12] = 12%nat /\
  push_sample [1; 2; 3] 4 = [1; 2; 3; 4] /\
  fold_left push_sample [1; 2; 3; 4; 5; 6; 7; 8; 9; 10; 11; 12] [] =
  [2; 3; 4; 5; 6; 7; 8; 9; 10; 11; 12].
Proof.
  assert (H1 : (length [1; 2; 3] < 11)%nat) by (simpl; lia).
  assert (H2 : length [1; 2; 3; 4; 5; 6; 7; 8; 9; 10; 11; 12] = 12%nat) by reflexivity.
  pose proof (window_is_fifo [1; 2; 3; 4; 5; 6; 7; 8; 9; 10; 11; 12] [1; 2; 3] 4)
    as (_ & Hpush & _ & _ & _ & Hall).
  exact (conj H1 (conj H2 (conj (Hpush H1) (Hall H2)))).
Defined.

(** ** Theorems: the smoothing filter, for every arithmetic *)

Section ProgramFacts.

Context {D : Type} (ar : Arith D).

Lemma nth_error_skipn (l : list D) (k : nat) (w : D) :
  nth_error l k = Some w -> skipn k l = w :: skipn (S k) l.
Proof.
  revert k. induction l as [|h t IH]; intros [|k] H; try discriminate.
  - injection H as ->. reflexivity.
  - cbn [nth_error] in H. apply IH in H. exact H.
Qed.

Lemma getResult_loop_in_bounds (weights : list D) (iter : list Z) (k : nat) (total : D) :
  (k + length iter <= length weights)%nat ->
  getResult_loop ar weights iter k total =
  Some (fold_left (fun acc p => d_add ar acc (d_mul ar (d_of_int ar (fst p)) (snd p)))
          (combine iter (skipn k weights)) total).
Proof.
  revert k total. induction iter as [|x rest IH]; intros k total Hlen; [reflexivity|].
  cbn [length] in Hlen. cbn [getResult_loop].
  destruct (nth_error weights k) as [w|] eqn:Hw.
  - rewrite (nth_error_skipn _ _ _ Hw). cbn [combine fold_left fst snd].
    apply IH. lia.
  - apply nth_error_None in Hw. lia.
Qed.

Lemma getResult_loop_out_of_bounds (weights : list D) (iter : list Z) (k : nat) (total : D) :
  (k <= length weights)%nat ->
  (length weights < k + length iter)%nat ->
  getResult_loop ar weights iter k total = None.
Proof.
  revert k total. induction iter as [|x rest IH]; intros k total Hk Hlen;
    cbn [length] in Hlen; [lia|].
  cbn [getResult_loop].
  destruct (nth_error weights k) as [w|] eqn:Hw; [|reflexivity].
  assert (k < length weights)%nat by (apply nth_error_Some; congruence).
  apply IH; lia.
Qed.

Lemma getResult_in_bounds (window : list Z) (frequency : Z) (weights : list D) :
  (length window <= length weights)%nat ->
  getResult ar window frequency weights =
  Some (compute_spec ar window weights frequency).
Proof.
  intros H. unfold getResult, compute_spec, weighted_sum.
  rewrite getResult_loop_in_bounds by (cbn; lia). reflexivity.
Qed.

End ProgramFacts.

(** C1. On a window as long as the weight vector, [getResult] returns the
    sum over the positions, oldest first, of delay times weight, divided
    by the frequency and multiplied by 1000; this holds in every
    arithmetic of [double], the IEEE one with its roundings included. *)
Theorem getResult_is_weighted_sum {D : Type} (ar : Arith D)
    (window : list Z) (weights : list D) (frequency : Z) :
  length window = length weights ->
  getResult ar window frequency weights =
  Some (d_mul ar
          (d_div ar
             (fold_left (fun acc p => d_add ar acc (d_mul ar (d_of_int ar (fst p)) (snd p)))
                (combine window weights) (d_of_int ar 0))
             (d_of_int ar frequency))
          (d_of_int ar 1000)).
Proof.
  intros H. rewrite getResult_in_bounds by lia. reflexivity.
Qed.

Lemma getResult_is_weighted_sum_witness :
  length [3; 5] = length example_weights_b64 /\
  getResult b64 [3; 5] 8 example_weights_b64 =
  Some (d_div b64 (d_of_int b64 1125) (d_of_int b64 2)).
Proof.
  split; [reflexivity|].
  rewrite (getResult_is_weighted_sum b64 [3; 5] example_weights_b64 8 eq_refl).
  vm_compute. reflexivity.
Defined.

(** ** Theorems: weight initialisation, for every arithmetic *)

Lemma vec_set_length {A : Type} (i : nat) (x : A) (v : list A) :
  length (vec_set i x v) = length v.
Proof.
  revert i. induction v as [|h t IH]; intros [|i]; cbn; try reflexivity.
  rewrite IH. reflexivity.
Qed.

Lemma vec_set_middle {A : Type} (pre post : list A) (o x : A) :
  vec_set (length pre) x (pre ++ o :: post) = pre ++ x :: post.
Proof.
  induction pre as [|h t IH]; cbn; [reflexivity|]. rewrite IH. reflexivity.
Qed.

Lemma nth_middle_eq {A : Type} (pre post : list A) (x d : A) :
  nth (length pre) (pre ++ x :: post) d = x.
Proof. induction pre as [|h t IH]; cbn; auto. Qed.

Lemma offset_from_center (n i : Z) :
  is_uint32 n -> n mod 2 = 1 -> 0 <= i < n ->
  to_int32 (to_int32 i - to_int32 (n / 2)) = i - n / 2.
Proof.
  unfold is_uint32, to_int32, wrap_signed. cbv zeta.
  change (2 ^ 32) with 4294967296. change (2 ^ (32 - 1)) with 2147483648.
  intros Hn Hodd Hi.
  repeat match goal with
         | |- context [?a <? ?b] => destruct (Z.ltb_spec a b)
         end; Z.to_euclidean_division_equations; lia.
Qed.

Lemma nth_map_seq {A : Type} (f : nat -> A) (len j : nat) (d : A) :
  (j < len)%nat -> nth j (map f (seq 0 len)) d = f j.
Proof.
  intros Hj.
  rewrite (nth_indep _ d (f 0%nat)) by (rewrite length_map, length_seq; exact Hj).
  rewrite map_nth, seq_nth by exact Hj. reflexivity.
Qed.

Section WeightFacts.

Context {D : Type} (ar : Arith D) (lm : Libm D).

Lemma fill_loop_spec (c1 c2 : D) (offset : Z) (cnt : nat) :
  forall (pre old post : list D) (tot : D),
    length old = cnt ->
    fill_loop ar lm c1 c2 offset cnt (Z.of_nat (length pre)) (pre ++ old ++ post, tot) =
    (pre ++ map (kernel_at ar lm c1 c2 offset) (seq (length pre) cnt) ++ post,
     fold_left (d_add ar) (map (kernel_at ar lm c1 c2 offset) (seq (length pre) cnt)) tot).
Proof.
  induction cnt as [|c IH]; intros pre old post tot Hold.
  - destruct old; [reflexivity|discriminate].
  - destruct old as [|o old]; [discriminate|]. injection Hold as Hold.
    cbn [fill_loop]. rewrite Nat2Z.id.
    cbn [app]. rewrite vec_set_middle, nth_middle_eq.
    replace (Z.of_nat (length pre) + 1) with (Z.of_nat (length (pre ++ [kernel_at ar lm c1 c2 offset (length pre)])))
      by (rewrite length_app; cbn [length]; lia).
    fold (kernel_at ar lm c1 c2 offset (length pre)).
    replace (pre ++ kernel_at ar lm c1 c2 offset (length pre) :: old ++ post)
      with ((pre ++ [kernel_at ar lm c1 c2 offset (length pre)]) ++ old ++ post)
      by (rewrite <- app_assoc; reflexivity).
    rewrite (IH _ old post _ Hold).
    rewrite length_app. cbn [length]. rewrite Nat.add_1_r.
    cbn [seq map fold_left]. rewrite <- app_assoc. reflexivity.
Qed.

Lemma scale_loop_spec (adjust : D) (cnt : nat) :
  forall (pre old post : list D),
    length old = cnt ->
    scale_loop ar adjust cnt (Z.of_nat (length pre)) (pre ++ old ++ post) =
    pre ++ map (fun w => d_mul ar w adjust) old ++ post.
Proof.
  induction cnt as [|c IH]; intros pre old post Hold.
  - destruct old; [reflexivity|discriminate].
  - destruct old as [|o old]; [discriminate|]. injection Hold as Hold.
    cbn [scale_loop]. rewrite Nat2Z.id.
    cbn [app]. rewrite vec_set_middle, nth_middle_eq.
    replace (Z.of_nat (length pre) + 1) with (Z.of_nat (length (pre ++ [d_mul ar o adjust])))
      by (rewrite length_app; cbn [length]; lia).
    replace (pre ++ d_mul ar o adjust :: old ++ post)
      with ((pre ++ [d_mul ar o adjust]) ++ old ++ post)
      by (rewrite <- app_assoc; reflexivity).
    rewrite (IH _ old post Hold).
    cbn [map]. rewrite <- app_assoc. reflexivity.
Qed.

Lemma init_weights_guard (n : Z) :
  ((n <? 1) || negb (n mod 2 =? 1) = false) <-> (1 <= n /\ n mod 2 = 1).
Proof.
  rewrite orb_false_iff, negb_false_iff, Z.ltb_ge, Z.eqb_eq. reflexivity.
Qed.

Lemma init_weights_closed_form (n : Z) :
  1 <= n -> n mod 2 = 1 ->
  init_weights ar lm n = Ok (normalized_weights ar lm n).
Proof.
  intros Hpos Hodd. unfold init_weights.
  rewrite (proj2 (init_weights_guard n) (conj Hpos Hodd)).
  cbv zeta.
  pose proof (fill_loop_spec
                (d_div ar (d_of_int ar 1)
                   (d_mul ar (sigma_of ar n) (d_sqrt lm (d_mul ar (d_of_int ar 2) (d_PI lm)))))
                (d_mul ar (d_of_int ar 2) (d_pow2 lm (sigma_of ar n)))
                (n / 2) (Z.to_nat n) [] (repeat (d_of_int ar 0) (Z.to_nat n)) []
                (d_of_int ar 0) (repeat_length _ _)) as Hfill.
  cbn [length app Z.of_nat] in Hfill. rewrite !app_nil_r in Hfill.
  rewrite Hfill.
  assert (Hlen : length (raw_weights ar lm n) = Z.to_nat n)
    by (unfold raw_weights; cbv zeta; rewrite length_map, length_seq; reflexivity).
  pose proof (scale_loop_spec
                (d_div ar (d_of_int ar 1)
                   (fold_left (d_add ar) (raw_weights ar lm n) (d_of_int ar 0)))
                (Z.to_nat n) [] (raw_weights ar lm n) [] Hlen) as Hscale.
  cbn [length app Z.of_nat] in Hscale. rewrite !app_nil_r in Hscale.
  unfold normalized_weights. cbv zeta.
  rewrite <- Hscale. reflexivity.
Qed.

Lemma normalized_weights_length (n : Z) :
  length (normalized_weights ar lm n) = Z.to_nat n.
Proof.
  unfold normalized_weights, raw_weights. cbv zeta.
  rewrite !length_map, length_seq. reflexivity.
Qed.

(** Symmetry needs of the arithmetic only that [pow(x, 2.0)] does not
    see the sign of [x]. *)
Lemma normalized_weights_symmetric (n : Z) (i : nat) (d : D) :
  is_uint32 n -> 1 <= n -> n mod 2 = 1 ->
  (forall x : Z, d_pow2 lm (d_of_int ar (- x)) = d_pow2 lm (d_of_int ar x)) ->
  (i < Z.to_nat n)%nat ->
  nth i (normalized_weights ar lm n) d =
  nth (Z.to_nat n - 1 - i) (normalized_weights ar lm n) d.
Proof.
  intros Hrange Hpos Hodd Heven Hi.
  unfold normalized_weights, raw_weights. cbv zeta.
  rewrite !map_map, !nth_map_seq by lia.
  f_equal. unfold kernel_at.
  rewrite !offset_from_center by (auto; lia).
  replace (Z.of_nat (Z.to_nat n - 1 - i) - n / 2) with (- (Z.of_nat i - n / 2))
    by (Z.to_euclidean_division_equations; lia).
  rewrite Heven. reflexivity.
Qed.

End WeightFacts.

(** C6. For a [filterSize] in the range of its type, [init_weights] throws
    exactly when [filterSize] is even or not positive, and then returns no
    vector; otherwise it returns one, of [filterSize] entries. *)
Theorem init_weights_throws_iff {D : Type} (ar : Arith D) (lm : Libm D) (n : Z) :
  is_uint32 n ->
  (init_weights ar lm n = Throw "Filter size must be a positive and odd value!"
   <-> (Z.even n = true \/ n <= 0)) /\
  ((Z.even n = true \/ n <= 0) -> forall ws, init_weights ar lm n <> Ok ws) /\
  (~ (Z.even n = true \/ n <= 0) ->
   exists ws, init_weights ar lm n = Ok ws /\ length ws = Z.to_nat n).
Proof.
  intros Hrange.
  assert (Hcase : (Z.even n = true \/ n <= 0) \/ (1 <= n /\ n mod 2 = 1)).
  { rewrite Zeven_mod, Z.eqb_eq.
    pose proof (Z.mod_pos_bound n 2 ltac:(lia)). lia. }
  assert (Hexcl : (Z.even n = true \/ n <= 0) -> ~ (1 <= n /\ n mod 2 = 1)).
  { rewrite Zeven_mod, Z.eqb_eq. lia. }
  assert (Hthrow : (Z.even n = true \/ n <= 0) ->
                   init_weights ar lm n = Throw "Filter size must be a positive and odd value!").
  { intros H. unfold init_weights.
    destruct ((n <? 1) || negb (n mod 2 =? 1)) eqn:G; [reflexivity|].
    apply init_weights_guard in G. exfalso. exact (Hexcl H G). }
  repeat split.
  - intros H. destruct Hcase as [Hc|[Hp Ho]]; [exact Hc|].
    rewrite (init_weights_closed_form ar lm n Hp Ho) in H. discriminate.
  - exact Hthrow.
  - intros H ws. rewrite (Hthrow H). discriminate.
  - intros H. destruct Hcase as [Hc|[Hp Ho]]; [contradiction|].
    exists (normalized_weights ar lm n). split.
    + apply init_weights_closed_form; assumption.
    + apply normalized_weights_length.
Qed.

Lemma init_weights_throws_iff_witness :
  is_uint32 4 /\
  init_weights real real_libm 4 = Throw "Filter size must be a positive and odd value!" /\
  is_uint32 0 /\
  init_weights real real_libm 0 = Throw "Filter size must be a positive and odd value!".
Proof.
  assert (H4 : is_uint32 4) by (unfold is_uint32; lia).
  assert (H0 : is_uint32 0) by (unfold is_uint32; lia).
  split; [exact H4|]. split.
  - apply (proj1 (init_weights_throws_iff real real_libm 4 H4)). left. reflexivity.
  - split; [exact H0|].
    apply (proj1 (init_weights_throws_iff real real_libm 0 H0)). left. reflexivity.
Defined.

(** ** Theorems: the sampling loop *)

Section LoopFacts.

Context {D : Type} (ar : Arith D) (lm : Libm D) (env : Env).

Lemma startup_ok :
  startup ar lm env =
  Ok {| frequency := getFrequency env;
        weights := normalized_weights ar lm WINDOW_SIZE;
        spinner := 0; results := [];
        os := {| queries := 0; sleeps := 0 |};
        iteration := 0;
        out := [EPrintBanner; EPrintInitializing] |}.
Proof.
  unfold startup.
  rewrite (init_weights_closed_form ar lm WINDOW_SIZE) by (unfold WINDOW_SIZE; now cbn).
  reflexivity.
Qed.

Lemma show_spec (s : loop_state D) :
  length (weights s) = 11%nat ->
  (length (results s) <> 11%nat /\ show ar s = Some s) \/
  (length (results s) = 11%nat /\
   exists result,
     getResult ar (results s) (frequency s) (weights s) = Some result /\
     show ar s =
     Some {| frequency := frequency s; weights := weights s;
             spinner := (spinner s + 1) mod 4;
             results := results s; os := os s; iteration := iteration s;
             out := out s ++
                    [EPrintResult (results s) result
                       (nth (Z.to_nat (spinner s)) SPINNER "000"%char)] |}).
Proof.
  intros Hw. unfold show, WINDOW_SIZE.
  destruct (Z.eqb_spec (Z.of_nat (length (results s))) 11) as [E|E].
  - right. split; [lia|].
    rewrite getResult_in_bounds by lia. eexists. split; reflexivity.
  - left. split; [lia|reflexivity].
Qed.

Lemma loop_body_total (s : loop_state D) :
  length (weights s) = 11%nat -> exists s', loop_body ar env s = Some s'.
Proof.
  intros Hw. unfold loop_body.
  destruct (doMeasure env (os (set_priority env s))) as [sample os'].
  match goal with |- exists _, show ar ?t = _ => destruct (show_spec t Hw) as [[_ H]|[_ [r [_ H]]]] end;
    rewrite H; eexists; reflexivity.
Qed.

Lemma set_priority_results (s : loop_state D) (window : list Z) (result : D) (spin : ascii) :
  In (EPrintResult window result spin) (out (set_priority env s)) ->
  In (EPrintResult window result spin) (out s).
Proof.
  cbn [set_priority out]. intros Hin.
  apply in_app_or in Hin. destruct Hin as [Hin|Hin]; [exact Hin|].
  destruct (realtime_ok env (iteration s)); cbn [In] in Hin;
    repeat (destruct Hin as [Hin|Hin]; [discriminate|]); contradiction.
Qed.

Lemma loop_body_invariant (s s' : loop_state D) :
  loop_invariant ar s -> loop_body ar env s = Some s' -> loop_invariant ar s'.
Proof.
  intros (Hw & Hr & Hs & Hev) Hbody. unfold loop_body in Hbody.
  unfold doMeasure in Hbody. rewrite measure_loop_5 in Hbody.
  match type of Hbody with
  | show ar ?t = _ =>
      destruct (show_spec t Hw) as [[_ H]|[Hfull [r [Hget H]]]]
  end; rewrite H in Hbody; injection Hbody as <-; unfold loop_invariant;
    cbn [with_results weights results os sleeps iteration out frequency set_priority
           queries] in *.
  - split; [exact Hw|]. split; [apply push_sample_length|]. split; [lia|].
    intros window result spin Hin.
    apply (Hev window result spin), set_priority_results. exact Hin.
  - split; [exact Hw|]. split; [apply push_sample_length|]. split; [lia|].
    intros window result spin Hin.
    apply in_app_or in Hin. destruct Hin as [Hin|Hin].
    + apply (Hev window result spin), set_priority_results. exact Hin.
    + destruct Hin as [Hin|[]]. injection Hin as <- <- _.
      split; assumption.
Qed.

Lemma reachable_invariant (s : loop_state D) :
  reachable ar lm env s -> loop_invariant ar s.
Proof.
  induction 1 as [s Hstart|s s' _ IH Hbody].
  - rewrite startup_ok in Hstart. injection Hstart as <-.
    unfold loop_invariant. cbn [weights results os sleeps iteration out frequency].
    rewrite normalized_weights_length.
    split; [reflexivity|]. split; [cbn; lia|]. split; [reflexivity|].
    intros window result spin [H|[H|[]]]; discriminate.
  - exact (loop_body_invariant s s' IH Hbody).
Qed.

Lemma startup_start_state : startup ar lm env = Ok (start_state ar lm env).
Proof. unfold start_state. rewrite startup_ok. reflexivity. Qed.

Lemma steps_add (a b : nat) (m : machine D) :
  steps ar lm env (a + b) m = steps ar lm env b (steps ar lm env a m).
Proof. revert m. induction a as [|a IH]; intros m; cbn [steps Nat.add]; auto. Qed.

Ltac run_thread :=
  cbv beta iota zeta delta
    [steps step pc locals g_bRunning at_pc getTimerValue Sleep1 os results
       with_results set_priority push_sample doMeasure loop_body ctrl_handler
       frequency weights spinner iteration out
       vec_set repeat length Nat.ltb Nat.leb queries sleeps measure_loop].

Lemma iteration_steps (b : bool) (s s' : loop_state D) :
  loop_body ar env s = Some s' ->
  steps ar lm env 19 {| pc := PPriority; g_bRunning := b; locals := s |} =
  {| pc := PHead; g_bRunning := b; locals := s' |}.
Proof.
  destruct s as [f w sp r [q sl] it ou].
  run_thread. intros H. rewrite H. reflexivity.
Qed.

Lemma handler_within_iteration (k : nat) (b : bool) (s : loop_state D) :
  (k <= 19)%nat ->
  ctrl_handler (steps ar lm env k {| pc := PPriority; g_bRunning := b; locals := s |}) =
  steps ar lm env k {| pc := PPriority; g_bRunning := false; locals := s |}.
Proof.
  intros Hk. destruct s as [f w sp r [q sl] it ou].
  do 19 (destruct k as [|k]; [run_thread; reflexivity|]).
  destruct k as [|k]; [|lia].
  run_thread.
  match goal with |- context [show ar ?t] => destruct (show ar t) end; reflexivity.
Qed.

Lemma loop_body_iteration (s s' : loop_state D) :
  length (weights s) = 11%nat ->
  loop_body ar env s = Some s' -> iteration s' = S (iteration s).
Proof.
  intros Hw Hbody. unfold loop_body in Hbody.
  destruct (doMeasure env (os (set_priority env s))) as [sample os'].
  match type of Hbody with
  | show ar ?t = _ => destruct (show_spec t Hw) as [[_ H]|[_ [r [_ H]]]]
  end; rewrite H in Hbody; injection Hbody as <-; reflexivity.
Qed.

Lemma iterations_snoc (n : nat) (s0 s s' : loop_state D) :
  iterations ar env n s0 = Some s -> loop_body ar env s = Some s' ->
  iterations ar env (S n) s0 = Some s'.
Proof.
  revert s0. induction n as [|n IH]; intros s0 Hn Hbody.
  - injection Hn as ->. cbn [iterations]. rewrite Hbody. reflexivity.
  - cbn [iterations] in Hn. change (iterations ar env (S (S n)) s0)
      with (match loop_body ar env s0 with
            | Some s1 => iterations ar env (S n) s1
            | None => None
            end).
    destruct (loop_body ar env s0) as [s1|]; [|discriminate].
    apply IH; assumption.
Qed.

(** After the start-up step and [q] times twenty steps the thread is back
    at the loop head, [q] iterations done. *)
Lemma steps_S (n : nat) (m : machine D) :
  steps ar lm env (S n) m = steps ar lm env n (step ar lm env m).
Proof. reflexivity. Qed.

Lemma step_head_running (s : loop_state D) :
  step ar lm env {| pc := PHead; g_bRunning := true; locals := s |} =
  {| pc := PPriority; g_bRunning := true; locals := s |}.
Proof. reflexivity. Qed.

Lemma step_boot :
  step ar lm env boot =
  {| pc := PHead; g_bRunning := true; locals := start_state ar lm env |}.
Proof.
  unfold step, boot. cbn [pc]. rewrite startup_start_state. reflexivity.
Qed.

Lemma step_boot_signalled :
  step ar lm env (ctrl_handler boot) =
  {| pc := PHead; g_bRunning := false; locals := start_state ar lm env |}.
Proof.
  unfold step, boot, ctrl_handler. cbn [pc]. rewrite startup_start_state. reflexivity.
Qed.

Lemma steps_to_head (q : nat) :
  exists s,
    iterations ar env q (start_state ar lm env) = Some s /\
    reachable ar lm env s /\
    iteration s = q /\
    steps ar lm env (1 + 20 * q) (boot (D := D)) =
    {| pc := PHead; g_bRunning := true; locals := s |}.
Proof.
  induction q as [|q (s & Hit & Hreach & Hcount & Hsteps)].
  - exists (start_state ar lm env).
    split; [reflexivity|]. split; [apply reach_start, startup_start_state|].
    split; [unfold start_state; rewrite startup_ok; reflexivity|].
    replace (1 + 20 * 0)%nat with 1%nat by reflexivity.
    rewrite (steps_S 0), step_boot. reflexivity.
  - pose proof (reachable_invariant s Hreach) as (Hw & _).
    destruct (loop_body_total s Hw) as [s' Hbody].
    exists s'.
    split; [exact (iterations_snoc q _ s s' Hit Hbody)|].
    split; [exact (reach_step ar lm env s s' Hreach Hbody)|].
    split; [rewrite (loop_body_iteration s s' Hw Hbody), Hcount; reflexivity|].
    replace (1 + 20 * S q)%nat with ((1 + 20 * q) + 20)%nat by lia.
    rewrite steps_add, Hsteps.
    rewrite (steps_S 19), step_head_running.
    apply iteration_steps. exact Hbody.
Qed.

Lemma exit_from_head (s : loop_state D) :
  steps ar lm env 2 {| pc := PHead; g_bRunning := false; locals := s |} =
  {| pc := PReturned EXIT_SUCCESS; g_bRunning := false; locals := print_exit s |}.
Proof. reflexivity. Qed.

Lemma returned_is_final (n : nat) (code : Z) (b : bool) (s : loop_state D) :
  steps ar lm env n {| pc := PReturned code; g_bRunning := b; locals := s |} =
  {| pc := PReturned code; g_bRunning := b; locals := s |}.
Proof. induction n as [|n IH]; [reflexivity|rewrite steps_S; exact IH]. Qed.

(** The run with the handler firing after [t] thread steps. *)
Lemma run_with_signal_spec (t : nat) :
  exists fuel s,
    iterations ar env ((t + 18) / 20) (start_state ar lm env) = Some s /\
    reachable ar lm env s /\
    iteration s = ((t + 18) / 20)%nat /\
    forall extra,
      run_with_signal ar lm env t (fuel + extra) =
      {| pc := PReturned EXIT_SUCCESS; g_bRunning := false; locals := print_exit s |}.
Proof.
  destruct t as [|t].
  - exists 3%nat, (start_state ar lm env).
    split; [reflexivity|]. split; [apply reach_start, startup_start_state|].
    split; [unfold start_state; rewrite startup_ok; reflexivity|].
    intros extra. unfold run_with_signal. rewrite steps_add.
    replace (steps ar lm env 0 boot) with (boot (D := D)) by reflexivity.
    rewrite (steps_S 2), step_boot_signalled, exit_from_head.
    apply returned_is_final.
  - pose proof (Nat.div_mod_eq t 20) as Ht.
    pose proof (Nat.mod_upper_bound t 20 ltac:(lia)) as Hr.
    destruct (steps_to_head (t / 20)) as (s & Hit & Hreach & Hcount & Hsteps).
    destruct (t mod 20)%nat as [|r] eqn:Er.
    + assert (Hn : ((S t + 18) / 20)%nat = (t / 20)%nat).
      { symmetry. apply (Nat.div_unique (S t + 18) 20 (t / 20) 19); lia. }
      exists 2%nat, s. rewrite Hn.
      split; [exact Hit|]. split; [exact Hreach|]. split; [exact Hcount|].
      intros extra. unfold run_with_signal. rewrite steps_add.
      replace (S t) with (1 + 20 * (t / 20))%nat by lia. rewrite Hsteps.
      replace (ctrl_handler {| pc := PHead; g_bRunning := true; locals := s |})
        with {| pc := PHead; g_bRunning := false; locals := s |} by reflexivity.
      rewrite exit_from_head. apply returned_is_final.
    + pose proof (reachable_invariant s Hreach) as (Hw & _).
      destruct (loop_body_total s Hw) as [s' Hbody].
      assert (Hn : ((S t + 18) / 20)%nat = S (t / 20)).
      { symmetry. apply (Nat.div_unique (S t + 18) 20 (S (t / 20)) r); lia. }
      exists ((19 - r) + 2)%nat, s'. rewrite Hn.
      split; [exact (iterations_snoc _ _ s s' Hit Hbody)|].
      split; [exact (reach_step ar lm env s s' Hreach Hbody)|].
      split; [rewrite (loop_body_iteration s s' Hw Hbody), Hcount; reflexivity|].
      intros extra. unfold run_with_signal.
      replace (S t) with ((1 + 20 * (t / 20)) + S r)%nat by lia.
      rewrite (steps_add (1 + 20 * (t / 20))), Hsteps.
      rewrite (steps_S r), step_head_running.
      rewrite handler_within_iteration by lia.
      rewrite <- steps_add.
      replace (r + (19 - r + 2 + extra))%nat with (19 + (2 + extra))%nat by lia.
      rewrite (steps_add 19), (iteration_steps false s s' Hbody).
      rewrite (steps_add 2), exit_from_head. apply returned_is_final.
Qed.

(** Without the handler the thread never leaves the loop. *)
Lemma no_exit_without_signal (t : nat) :
  main_exit_code (steps ar lm env t (boot (D := D))) = None /\
  g_bRunning (steps ar lm env t (boot (D := D))) = true.
Proof.
  destruct t as [|t]; [split; reflexivity|].
  pose proof (Nat.div_mod_eq t 20) as Ht.
  pose proof (Nat.mod_upper_bound t 20 ltac:(lia)) as Hr.
  destruct (steps_to_head (t / 20)) as (s & _ & _ & _ & Hsteps).
  replace (S t) with ((1 + 20 * (t / 20)) + t mod 20)%nat by lia.
  rewrite steps_add, Hsteps.
  destruct s as [f w sp r [q sl] it ou].
  remember (t mod 20)%nat as k eqn:Ek. clear Ek Ht Hsteps.
  unfold main_exit_code.
  do 20 (destruct k as [|k]; [run_thread; split; reflexivity|]).
  lia.
Qed.

End LoopFacts.

(** C8. In every state the loop reaches, the weight vector has 11 entries
    and the window at most 11; every result the loop has printed was
    computed by [getResult] on a window of exactly 11 entries, the length
    of the weight vector, so that no read of [weights[k]] was out of
    bounds; a window that is not full makes [show] skip the call; and the
    next iteration again completes without an out-of-bounds read. *)
Theorem getResult_only_on_full_window {D : Type} (ar : Arith D) (lm : Libm D) (env : Env)
    (s : loop_state D) :
  reachable ar lm env s ->
  Z.of_nat (length (weights s)) = WINDOW_SIZE /\
  Z.of_nat (length (results s)) <= WINDOW_SIZE /\
  (forall window result spin,
      In (EPrintResult window result spin) (out s) ->
      Z.of_nat (length window) = WINDOW_SIZE /\
      length window = length (weights s) /\
      getResult ar window (frequency s) (weights s) = Some result) /\
  (forall s0 : loop_state D,
      Z.of_nat (length (results s0)) <> WINDOW_SIZE -> show ar s0 = Some s0) /\
  (forall window : list Z,
      (length (weights s) < length window)%nat ->
      getResult ar window (frequency s) (weights s) = None) /\
  exists s', loop_body ar env s = Some s' /\ reachable ar lm env s'.
Proof.
  intros Hreach.
  destruct (reachable_invariant ar lm env s Hreach) as (Hw & Hr & _ & Hev).
  unfold WINDOW_SIZE.
  split; [lia|]. split; [lia|]. split; [|split; [|split]].
  - intros window result spin Hin. destruct (Hev window result spin Hin) as [Hlen Hget].
    split; [lia|]. split; [lia|exact Hget].
  - intros s0 Hs0. unfold show, WINDOW_SIZE.
    destruct (Z.eqb_spec (Z.of_nat (length (results s0))) 11); [contradiction|reflexivity].
  - intros window Hlen. unfold getResult.
    rewrite getResult_loop_out_of_bounds by (cbn; lia). reflexivity.
  - destruct (loop_body_total ar env s Hw) as [s' Hbody].
    exists s'. split; [exact Hbody|]. exact (reach_step ar lm env s s' Hreach Hbody).
Qed.

(** C9. Let the console control handler fire after the thread has made
    [t] steps, wherever in the program that is.  The thread finishes the
    iteration it is in, all five sleeps of it, reads the flag at the loop
    head, prints the exit notice and returns [EXIT_SUCCESS]: the final
    state is the state after [n] whole iterations with the notice appended
    to the output, where [n] counts the iterations begun before the signal
    (the start-up is one step and an iteration twenty); exactly [5 * n]
    sleeps were made; and up to the signal the program had not returned. *)
Theorem shutdown_completes_iteration {D : Type} (ar : Arith D) (lm : Libm D) (env : Env)
    (t : nat) :
  exists (fuel : nat) (s : loop_state D),
    iterations ar env ((t + 18) / 20) (start_state ar lm env) = Some s /\
    tiimt_main ar lm env ((t + 18) / 20) = Some (Ok (EXIT_SUCCESS, print_exit s)) /\
    sleeps (os s) = (5 * ((t + 18) / 20))%nat /\
    (forall extra,
        run_with_signal ar lm env t (fuel + extra) =
        {| pc := PReturned EXIT_SUCCESS; g_bRunning := false; locals := print_exit s |}) /\
    main_exit_code (run_with_signal ar lm env t fuel) = Some EXIT_SUCCESS /\
    out (locals (run_with_signal ar lm env t fuel)) = out s ++ [EPrintExit] /\
    main_exit_code (steps ar lm env t boot) = None /\
    g_bRunning (steps ar lm env t boot) = true.
Proof.
  destruct (run_with_signal_spec ar lm env t) as (fuel & s & Hit & Hreach & Hcount & Hrun).
  destruct (reachable_invariant ar lm env s Hreach) as (_ & _ & Hsleeps & _).
  exists fuel, s.
  split; [exact Hit|].
  split; [unfold tiimt_main; rewrite startup_start_state, Hit; reflexivity|].
  split; [rewrite Hsleeps, Hcount; reflexivity|].
  split; [exact Hrun|].
  pose proof (Hrun 0%nat) as H0. rewrite Nat.add_0_r in H0. rewrite H0.
  split; [reflexivity|]. split; [reflexivity|].
  apply no_exit_without_signal.
Qed.

(** ** Theorems: the Gaussian kernel over the reals *)

Section RealKernel.

Local Open Scope R_scope.

Lemma fold_left_Rplus_acc (l : list R) (a : R) :
  fold_left Rplus l a = a + fold_left Rplus l 0.
Proof.
  revert a. induction l as [|x l IH]; intros a; cbn [fold_left].
  - lra.
  - rewrite (IH (a + x)), (IH (0 + x)). lra.
Qed.

Lemma sum_positive (l : list R) :
  l <> [] -> Forall (fun w => 0 < w) l -> 0 < fold_left Rplus l 0.
Proof.
  intros Hne Hall. induction Hall as [|x l Hx Hall IH]; [contradiction|].
  cbn [fold_left]. rewrite fold_left_Rplus_acc.
  destruct l as [|y l]; [cbn [fold_left]; lra|].
  assert (0 < fold_left Rplus (y :: l) 0) by (apply IH; discriminate). lra.
Qed.

Lemma exp_monotone (x y : R) : x <= y -> exp x <= exp y.
Proof.
  intros [H|H]; [left; apply exp_increasing; exact H|right; rewrite H; reflexivity].
Qed.

Lemma sigma_real (n : Z) : sigma_of real n = IZR n / 6.
Proof. unfold sigma_of. cbn [d_of_int d_add d_sub d_div real]. field. Qed.

Lemma sigma_positive (n : Z) : (1 <= n)%Z -> 0 < sigma_of real n.
Proof. intros H. rewrite sigma_real. apply IZR_le in H. lra. Qed.

Lemma real_c1_positive (n : Z) : (1 <= n)%Z -> 0 < real_c1 n.
Proof.
  intros H. unfold real_c1.
  assert (0 < sigma_of real n) by (apply sigma_positive; exact H).
  assert (0 < sqrt (2 * PI_literal)) by (apply sqrt_lt_R0; unfold PI_literal; lra).
  apply Rdiv_lt_0_compat; [lra|]. apply Rmult_lt_0_compat; assumption.
Qed.

Lemma gaussian_positive (sigma : R) (x : Z) : 0 < gaussian sigma x.
Proof. apply exp_pos. Qed.

Lemma gaussian_even (sigma : R) (x : Z) : gaussian sigma (- x) = gaussian sigma x.
Proof. unfold gaussian. rewrite opp_IZR. f_equal. f_equal. lra. Qed.

Section Size.

Variable n : Z.
Hypothesis Hrange : is_uint32 n.
Hypothesis Hpos : (1 <= n)%Z.
Hypothesis Hodd : (n mod 2 = 1)%Z.

Lemma raw_weights_real :
  raw_weights real real_libm n =
  map (fun j => real_c1 n * gaussian (sigma_of real n) (Z.of_nat j - n / 2))
      (seq 0 (Z.to_nat n)).
Proof.
  unfold raw_weights. cbv zeta. apply map_ext_in.
  intros j Hj. apply in_seq in Hj.
  unfold kernel_at. rewrite offset_from_center by (auto; lia).
  cbn [d_of_int d_mul d_div d_neg d_exp d_pow2 d_sqrt d_PI real real_libm].
  unfold real_c1, gaussian. f_equal. f_equal.
  unfold Rdiv. lra.
Qed.

Lemma raw_weights_positive : Forall (fun w => 0 < w) (raw_weights real real_libm n).
Proof.
  rewrite raw_weights_real. apply Forall_forall. intros w Hw.
  apply in_map_iff in Hw. destruct Hw as (j & <- & _).
  apply Rmult_lt_0_compat; [apply real_c1_positive; exact Hpos|apply gaussian_positive].
Qed.

Lemma real_total_positive : 0 < real_total n.
Proof.
  unfold real_total. apply sum_positive; [|apply raw_weights_positive].
  rewrite raw_weights_real. destruct (Z.to_nat n) eqn:E; [lia|discriminate].
Qed.

Lemma real_weight_at (j : nat) :
  (j < Z.to_nat n)%nat ->
  nth j (normalized_weights real real_libm n) 0 =
  real_c1 n * (1 / real_total n) * gaussian (sigma_of real n) (Z.of_nat j - n / 2).
Proof.
  intros Hj. unfold normalized_weights. cbv zeta.
  change (fold_left (d_add real) (raw_weights real real_libm n) (d_of_int real 0))
    with (real_total n).
  rewrite raw_weights_real.
  cbn [d_of_int d_mul d_div real].
  rewrite map_map.
  rewrite nth_map_seq by exact Hj. lra.
Qed.

Lemma real_scale_positive : 0 < real_c1 n * (1 / real_total n).
Proof.
  apply Rmult_lt_0_compat; [apply real_c1_positive; exact Hpos|].
  apply Rdiv_lt_0_compat; [lra|apply real_total_positive].
Qed.

Lemma real_weights_positive :
  Forall (fun w => 0 < w) (normalized_weights real real_libm n).
Proof.
  unfold normalized_weights. cbv zeta.
  change (fold_left (d_add real) (raw_weights real real_libm n) (d_of_int real 0))
    with (real_total n).
  apply Forall_forall. intros w Hw. apply in_map_iff in Hw.
  destruct Hw as (r & <- & Hr).
  pose proof (proj1 (Forall_forall _ _) raw_weights_positive r Hr) as Hr0.
  cbn [d_of_int d_mul d_div real] in *.
  apply Rmult_lt_0_compat; [exact Hr0|].
  apply Rdiv_lt_0_compat; [lra|apply real_total_positive].
Qed.

End Size.

End RealKernel.

Lemma odd_mod_2 (n : Z) : Z.odd n = true -> n mod 2 = 1.
Proof.
  intros H. apply Z.odd_spec in H. destruct H as [m ->].
  Z.to_euclidean_division_equations. lia.
Qed.

(** C5. Over the reals, for every odd positive [n] in the range of
    [filterSize], [init_weights] uses [sigma = ((n/2 - 1)/3) + 1/3] and
    returns weights proportional to [exp(-x^2 / (2 sigma^2))], [x] being
    the distance of the index from the middle index [n/2] (the 32-bit
    conversions of line 96 do not alter it); the vector is symmetric,
    [weights[i] = weights[n-1-i]].  The symmetry holds in every arithmetic
    of [double] in which [pow(x, 2.0)] does not depend on the sign of
    [x]. *)
Theorem weights_gaussian_symmetric (n : Z) :
  is_uint32 n -> 0 < n -> Z.odd n = true ->
  exists ws : list R,
    init_weights real real_libm n = Ok ws /\
    sigma_of real n = (((IZR n / 2 - 1) / 3) + 1 / 3)%R /\
    (exists kappa : R,
        (0 < kappa)%R /\
        forall i : nat,
          (i < Z.to_nat n)%nat ->
          nth i ws 0%R =
          (kappa * exp (- (IZR (Z.of_nat i - n / 2) * IZR (Z.of_nat i - n / 2)) /
                        (2 * (sigma_of real n * sigma_of real n))))%R) /\
    (forall i : nat,
        (i < Z.to_nat n)%nat -> nth i ws 0%R = nth (Z.to_nat n - 1 - i) ws 0%R) /\
    (forall (D : Type) (ar : Arith D) (lm : Libm D) (ws' : list D) (i : nat) (d : D),
        (forall x : Z, d_pow2 lm (d_of_int ar (- x)) = d_pow2 lm (d_of_int ar x)) ->
        init_weights ar lm n = Ok ws' ->
        (i < Z.to_nat n)%nat ->
        nth i ws' d = nth (Z.to_nat n - 1 - i) ws' d).
Proof.
  intros Hrange Hpos Hodd. apply odd_mod_2 in Hodd.
  assert (Hpos' : 1 <= n) by lia.
  exists (normalized_weights real real_libm n).
  split; [apply init_weights_closed_form; assumption|].
  split; [reflexivity|]. split; [|split].
  - exists (real_c1 n * (1 / real_total n))%R.
    split; [apply real_scale_positive; assumption|].
    intros i Hi. rewrite real_weight_at by assumption. reflexivity.
  - intros i Hi. rewrite !real_weight_at by (try assumption; lia).
    f_equal. rewrite <- gaussian_even. f_equal.
    Z.to_euclidean_division_equations. lia.
  - intros D ar lm ws' i d Heven Hok Hi.
    rewrite (init_weights_closed_form ar lm n Hpos' Hodd) in Hok. injection Hok as <-.
    apply normalized_weights_symmetric; assumption.
Qed.

Lemma weights_gaussian_symmetric_witness :
  is_uint32 11 /\ 0 < 11 /\ Z.odd 11 = true /\
  exists ws : list R,
    init_weights real real_libm 11 = Ok ws /\ nth 0 ws 0%R = nth 10 ws 0%R.
Proof.
  assert (H1 : is_uint32 11) by (unfold is_uint32; lia).
  assert (H2 : 0 < 11) by lia.
  assert (H3 : Z.odd 11 = true) by reflexivity.
  split; [exact H1|]. split; [exact H2|]. split; [exact H3|].
  destruct (weights_gaussian_symmetric 11 H1 H2 H3) as (ws & Hok & _ & _ & Hsym & _).
  exists ws. split; [exact Hok|].
  apply (Hsym 0%nat). simpl. lia.
Defined.


(** * Further properties of the code *)

(** ** The 32-bit arithmetic of line 96 *)

(** X1. For every [filterSize] of type [uint32_t] and every index below
    it, [int32_t(i) - int32_t(offset)] computed in 32 bits is the true
    difference [i - filterSize / 2], also for the indices from 2^31 on,
    which [int32_t(i)] turns negative. *)
Theorem line96_offset_exact (n i : Z) :
  is_uint32 n -> 0 <= i < n ->
  to_int32 (to_int32 i - to_int32 (n / 2)) = i - n / 2 /\
  - (n / 2) <= i - n / 2 <= n / 2.
Proof.
  unfold is_uint32, to_int32, wrap_signed. cbv zeta.
  change (2 ^ 32) with 4294967296. change (2 ^ (32 - 1)) with 2147483648.
  intros Hn Hi. split.
  - repeat match goal with
           | |- context [?a <? ?b] => destruct (Z.ltb_spec a b)
           end; Z.to_euclidean_division_equations; lia.
  - Z.to_euclidean_division_equations. lia.
Qed.

Lemma line96_offset_exact_witness :
  is_uint32 4294967295 /\ 0 <= 4294967294 < 4294967295 /\
  to_int32 4294967294 = -2 /\
  to_int32 (to_int32 4294967294 - to_int32 (4294967295 / 2)) = 2147483647.
Proof.
  assert (H1 : is_uint32 4294967295) by (unfold is_uint32; lia).
  assert (H2 : 0 <= 4294967294 < 4294967295) by lia.
  split; [exact H1|]. split; [exact H2|]. split; [reflexivity|].
  rewrite (proj1 (line96_offset_exact 4294967295 4294967294 H1 H2)). reflexivity.
Defined.

(** ** What [init_weights] returns, in every arithmetic *)

(** X2. In every arithmetic of [double], for an odd positive
    [filterSize] in range, the vector returned holds at each index [j] the
    unnormalised value for the offset [j - filterSize / 2], times
    [1.0 / totalWeight], where [totalWeight] is the sum of the
    unnormalised values accumulated from index 0 upwards starting from
    [0.0]: every slot is written, none keeps its initial zero. *)
Theorem init_weights_entries {D : Type} (ar : Arith D) (lm : Libm D) (n : Z) :
  is_uint32 n -> 1 <= n -> n mod 2 = 1 ->
  init_weights ar lm n =
  Ok (map (fun j : nat =>
             d_mul ar (unscaled_weight ar lm n (Z.of_nat j - n / 2))
               (d_div ar (d_of_int ar 1)
                  (fold_left (d_add ar)
                     (map (fun k : nat => unscaled_weight ar lm n (Z.of_nat k - n / 2))
                        (seq 0 (Z.to_nat n)))
                     (d_of_int ar 0))))
          (seq 0 (Z.to_nat n))).
Proof.
  intros Hrange Hpos Hodd.
  rewrite (init_weights_closed_form ar lm n Hpos Hodd).
  unfold normalized_weights, raw_weights. cbv zeta.
  assert (Hraw : map (kernel_at ar lm
                        (d_div ar (d_of_int ar 1)
                           (d_mul ar (sigma_of ar n)
                              (d_sqrt lm (d_mul ar (d_of_int ar 2) (d_PI lm)))))
                        (d_mul ar (d_of_int ar 2) (d_pow2 lm (sigma_of ar n))) (n / 2))
                   (seq 0 (Z.to_nat n)) =
                 map (fun k : nat => unscaled_weight ar lm n (Z.of_nat k - n / 2))
                   (seq 0 (Z.to_nat n))).
  { apply map_ext_in. intros j Hj. apply in_seq in Hj.
    unfold kernel_at, unscaled_weight. cbv zeta.
    rewrite offset_from_center by (auto; lia). reflexivity. }
  rewrite Hraw, map_map. reflexivity.
Qed.

Lemma init_weights_entries_witness :
  is_uint32 3 /\ 1 <= 3 /\ 3 mod 2 = 1 /\
  exists ws : list R, init_weights real real_libm 3 = Ok ws /\ length ws = 3%nat.
Proof.
  assert (H1 : is_uint32 3) by (unfold is_uint32; lia).
  assert (H2 : 1 <= 3) by lia.
  assert (H3 : 3 mod 2 = 1) by reflexivity.
  split; [exact H1|]. split; [exact H2|]. split; [exact H3|].
  eexists. split; [exact (init_weights_entries real real_libm 3 H1 H2 H3)|reflexivity].
Defined.

(** ** When [getResult] is defined *)

(** X3. In every arithmetic, [getResult] reads [weights] past its end
    exactly when the window is longer than the weight vector; on any
    window that is not longer it returns a value. *)
Theorem getResult_undefined_iff {D : Type} (ar : Arith D)
    (window : list Z) (frequency : Z) (ws : list D) :
  getResult ar window frequency ws = None <-> (length ws < length window)%nat.
Proof.
  split.
  - intros H. destruct (Nat.lt_ge_cases (length ws) (length window)) as [Hlt|Hge];
      [exact Hlt|].
    rewrite getResult_in_bounds in H by exact Hge. discriminate.
  - intros H. unfold getResult.
    rewrite getResult_loop_out_of_bounds by (cbn; lia). reflexivity.
Qed.

(** ** More on the sample estimator *)

Lemma doMeasure_sorted_shape (env : Env) (os : os_state) :
  exists a b c d e,
    ZSort.sort (raw_deltas env (queries os)) = [a; b; c; d; e] /\
    a <= b /\ b <= c /\ c <= d /\ d <= e /\
    fst (doMeasure env os) = c.
Proof.
  pose proof (ZSort.Permuted_sort (raw_deltas env (queries os))) as Hperm.
  assert (Hlen : length (ZSort.sort (raw_deltas env (queries os))) = 5%nat)
    by (rewrite <- (Permutation_length Hperm); reflexivity).
  destruct (sorted5_shape _ Hlen (ZSort.Sorted_sort _))
    as (a & b & c & d & e & Hshape & Hab & Hbc & Hcd & Hde).
  exists a, b, c, d, e. repeat (split; [assumption|]).
  unfold doMeasure. rewrite measure_loop_5. cbn [fst].
  unfold sort_and_pick. rewrite Hshape. reflexivity.
Qed.

Lemma doMeasure_in_deltas (env : Env) (os : os_state) :
  In (fst (doMeasure env os)) (raw_deltas env (queries os)).
Proof.
  destruct (doMeasure_sorted_shape env os)
    as (a & b & c & d & e & Hshape & _ & _ & _ & _ & Hm).
  apply (Permutation_in _ (Permutation_sym (ZSort.Permuted_sort _))).
  rewrite Hshape, Hm. cbn [In]. auto.
Qed.

(** X4. The value [doMeasure] returns is one of the five deltas it
    measured, and two outliers cannot move it: whenever at least three of
    the five deltas are at most [hi] the result is at most [hi], and
    whenever at least three are at least [lo] the result is at least
    [lo]. *)
Theorem doMeasure_robust (env : Env) (os : os_state) (lo hi : Z) :
  let ds := raw_deltas env (queries os) in
  let m := fst (doMeasure env os) in
  In m ds /\
  ((3 <= length (filter (fun x => Z.leb x hi) ds))%nat -> m <= hi) /\
  ((3 <= length (filter (fun x => Z.leb lo x) ds))%nat -> lo <= m).
Proof.
  intros ds m.
  pose proof (ZSort.Permuted_sort ds) as Hperm.
  destruct (doMeasure_sorted_shape env os)
    as (a & b & c & d & e & Hshape & Hab & Hbc & Hcd & Hde & Hm).
  fold ds in Hshape. fold m in Hm.
  split; [|split].
  - apply doMeasure_in_deltas.
  - rewrite (filter_length_perm _ _ _ Hperm), Hshape, Hm. cbn [filter].
    destruct (Z.leb_spec a hi), (Z.leb_spec b hi), (Z.leb_spec c hi),
      (Z.leb_spec d hi), (Z.leb_spec e hi); cbn [length]; lia.
  - rewrite (filter_length_perm _ _ _ Hperm), Hshape, Hm. cbn [filter].
    destruct (Z.leb_spec lo a), (Z.leb_spec lo b), (Z.leb_spec lo c),
      (Z.leb_spec lo d), (Z.leb_spec lo e); cbn [length]; lia.
Qed.

Lemma doMeasure_robust_witness :
  (3 <= length (filter (fun x => Z.leb x 7) (raw_deltas example_clock 0)))%nat /\
  (3 <= length (filter (fun x => Z.leb 3 x) (raw_deltas example_clock 0)))%nat /\
  3 <= fst (doMeasure example_clock {| queries := 0; sleeps := 0 |}) <= 7.
Proof.
  assert (H1 : (3 <= length (filter (fun x => Z.leb x 7) (raw_deltas example_clock 0)))%nat)
    by (vm_compute; lia).
  assert (H2 : (3 <= length (filter (fun x => Z.leb 3 x) (raw_deltas example_clock 0)))%nat)
    by (vm_compute; lia).
  pose proof (doMeasure_robust example_clock {| queries := 0; sleeps := 0 |} 3 7)
    as (_ & Hhi & Hlo).
  split; [exact H1|]. split; [exact H2|].
  split; [exact (Hlo H2)|exact (Hhi H1)].
Defined.

(** X5. When the ten clock readings of a call are non-negative 64-bit
    values that never decrease, no subtraction wraps: the result is the
    exact difference of one of the five pairs of readings, it is not
    negative, and it is at most the time between the first and the last
    reading. *)
Theorem doMeasure_monotone_clock (env : Env) (os : os_state) :
  (forall j : nat, (j < 10)%nat -> 0 <= reading env (queries os + j) < 2 ^ 63) ->
  (forall j : nat, (j < 9)%nat ->
                   reading env (queries os + j) <= reading env (queries os + S j)) ->
  let m := fst (doMeasure env os) in
  (exists i : nat,
      (i < 5)%nat /\
      m = reading env (queries os + 2 * i + 1) - reading env (queries os + 2 * i)) /\
  0 <= m <= reading env (queries os + 9) - reading env (queries os).
Proof.
  intros Hrange Hmono m.
  assert (Hexact : forall i : nat,
             (i < 5)%nat ->
             raw_delta env (queries os) i =
             reading env (queries os + 2 * i + 1) - reading env (queries os + 2 * i) /\
             0 <= raw_delta env (queries os) i <=
             reading env (queries os + 9) - reading env (queries os)).
  { intros i Hi. unfold raw_delta, to_int64, wrap_signed. cbv zeta.
    change (2 ^ 64) with 18446744073709551616.
    change (2 ^ (64 - 1)) with 9223372036854775808.
    change (2 ^ 63) with 9223372036854775808 in Hrange.
    pose proof (Hrange 0%nat ltac:(lia)) as R0. rewrite Nat.add_0_r in R0.
    pose proof (Hrange 1%nat ltac:(lia)) as R1.
    pose proof (Hrange 2%nat ltac:(lia)) as R2.
    pose proof (Hrange 3%nat ltac:(lia)) as R3.
    pose proof (Hrange 4%nat ltac:(lia)) as R4.
    pose proof (Hrange 5%nat ltac:(lia)) as R5.
    pose proof (Hrange 6%nat ltac:(lia)) as R6.
    pose proof (Hrange 7%nat ltac:(lia)) as R7.
    pose proof (Hrange 8%nat ltac:(lia)) as R8.
    pose proof (Hrange 9%nat ltac:(lia)) as R9.
    pose proof (Hmono 0%nat ltac:(lia)) as M0. rewrite Nat.add_0_r in M0.
    pose proof (Hmono 1%nat ltac:(lia)) as M1.
    pose proof (Hmono 2%nat ltac:(lia)) as M2.
    pose proof (Hmono 3%nat ltac:(lia)) as M3.
    pose proof (Hmono 4%nat ltac:(lia)) as M4.
    pose proof (Hmono 5%nat ltac:(lia)) as M5.
    pose proof (Hmono 6%nat ltac:(lia)) as M6.
    pose proof (Hmono 7%nat ltac:(lia)) as M7.
    pose proof (Hmono 8%nat ltac:(lia)) as M8.
    destruct i as [|[|[|[|[|i]]]]]; [| | | | |lia];
      cbn [Nat.mul Nat.add]; rewrite ?Nat.add_0_r;
      repeat match goal with
             | |- context [(queries os + ?k + 1)%nat] =>
                 replace (queries os + k + 1)%nat with (queries os + S k)%nat by lia
             end;
      match goal with
      | |- context [?a <? ?b] => destruct (Z.ltb_spec a b)
      end; Z.to_euclidean_division_equations; lia. }
  pose proof (doMeasure_in_deltas env os) as Hin.
  fold m in Hin. unfold raw_deltas in Hin. apply in_map_iff in Hin.
  destruct Hin as (i & Hi & Hseq). apply in_seq in Hseq.
  destruct (Hexact i ltac:(lia)) as [Heq Hbounds].
  split.
  - exists i. split; [lia|]. rewrite <- Hi. exact Heq.
  - rewrite <- Hi. exact Hbounds.
Qed.

Lemma doMeasure_monotone_clock_witness :
  0 <= fst (doMeasure example_clock {| queries := 0; sleeps := 0 |}) <= 47.
Proof.
  refine (proj2 (doMeasure_monotone_clock example_clock {| queries := 0; sleeps := 0 |} _ _)).
  - intros j Hj. cbn [queries Nat.add].
    do 10 (destruct j as [|j]; [vm_compute; split; [discriminate|reflexivity]|]). lia.
  - intros j Hj. cbn [queries Nat.add].
    do 9 (destruct j as [|j]; [vm_compute; discriminate|]). lia.
Defined.

Lemma raw_deltas_without_clock (env : Env) (k : nat) :
  (forall j : nat, qpc env j = None) -> raw_deltas env k = [0; 0; 0; 0; 0].
Proof.
  intros Hdead. unfold raw_deltas, raw_delta, reading. cbn [map seq].
  rewrite !Hdead. reflexivity.
Qed.

(** X6. When every clock query fails, each reading is the sentinel -1,
    every delta is 0 and [doMeasure] returns 0: the failure is not
    reported, the sample is indistinguishable from a measured zero. *)
Theorem doMeasure_without_clock (env : Env) (os : os_state) :
  (forall j : nat, qpc env j = None) ->
  raw_deltas env (queries os) = [0; 0; 0; 0; 0] /\
  fst (doMeasure env os) = 0.
Proof.
  intros Hdead.
  assert (Hd : raw_deltas env (queries os) = [0; 0; 0; 0; 0])
    by (apply raw_deltas_without_clock; exact Hdead).
  split; [exact Hd|].
  unfold doMeasure. rewrite measure_loop_5. cbn [fst]. rewrite Hd. reflexivity.
Qed.

Lemma doMeasure_without_clock_witness :
  (forall j : nat, qpc dead_clock j = None) /\
  fst (doMeasure dead_clock {| queries := 0; sleeps := 0 |}) = 0.
Proof.
  assert (H : forall j : nat, qpc dead_clock j = None) by reflexivity.
  split; [exact H|].
  exact (proj2 (doMeasure_without_clock dead_clock {| queries := 0; sleeps := 0 |} H)).
Defined.

(** ** Bounds on the weighted sum over the reals *)

Lemma weighted_sum_bounds (lo hi : Z) (window : list Z) (ws : list R) (a : R) :
  length window = length ws ->
  Forall (fun x => lo <= x <= hi) window ->
  Forall (fun w => (0 <= w)%R) ws ->
  (a + IZR lo * fold_left Rplus ws 0 <=
   fold_left (fun acc p => d_add real acc (d_mul real (d_of_int real (fst p)) (snd p)))
     (combine window ws) a <=
   a + IZR hi * fold_left Rplus ws 0)%R.
Proof.
  revert ws a. induction window as [|x window IH]; intros [|w ws] a Hlen Hwin Hws;
    try discriminate; cbn [combine fold_left fst snd].
  - lra.
  - inversion Hwin as [|? ? [Hlo Hhi] Hwin']; subst.
    inversion Hws as [|? ? Hw Hws']; subst.
    cbn [length] in Hlen.
    specialize (IH ws (d_add real a (d_mul real (d_of_int real x) w))
                  ltac:(lia) Hwin' Hws').
    rewrite (fold_left_Rplus_acc ws (0 + w)).
    cbn [d_add d_mul d_of_int real] in *.
    apply IZR_le in Hlo. apply IZR_le in Hhi.
    assert (IZR lo * w <= IZR x * w)%R by (apply Rmult_le_compat_r; assumption).
    assert (IZR x * w <= IZR hi * w)%R by (apply Rmult_le_compat_r; assumption).
    lra.
Qed.

(** ** More on the sampling loop *)

Lemma printed_spins_app {D : Type} (o1 o2 : list (event D)) :
  printed_spins (o1 ++ o2) = printed_spins o1 ++ printed_spins o2.
Proof.
  induction o1 as [|e o1 IH]; [reflexivity|].
  destruct e; cbn [app printed_spins]; rewrite IH; reflexivity.
Qed.

Lemma priority_requests_app {D : Type} (o1 o2 : list (event D)) :
  priority_requests (o1 ++ o2) = priority_requests o1 ++ priority_requests o2.
Proof.
  induction o1 as [|e o1 IH]; [reflexivity|].
  destruct e; cbn [app priority_requests]; rewrite IH; reflexivity.
Qed.

Lemma push_sample_skipn (l : list Z) (x : Z) :
  push_sample (skipn (length l - 11) l) x = skipn (S (length l) - 11) (l ++ [x]).
Proof.
  unfold push_sample. rewrite trim_skipn, skipn_skipn, length_skipn, skipn_app.
  replace (S (length l) - 11 - length l)%nat with 0%nat by lia.
  cbn [skipn]. f_equal. f_equal. lia.
Qed.

Section LoopMore.

Context {D : Type} (ar : Arith D) (lm : Libm D) (env : Env).

(** What one pass through the loop body changes. *)
Lemma loop_body_effect (s s' : loop_state D) :
  length (weights s) = 11%nat ->
  loop_body ar env s = Some s' ->
  weights s' = weights s /\
  frequency s' = frequency s /\
  iteration s' = S (iteration s) /\
  os s' = {| queries := queries (os s) + 10; sleeps := sleeps (os s) + 5 |} /\
  results s' =
  push_sample (results s) (sort_and_pick (raw_deltas env (queries (os s)))) /\
  ((length (results s') <> 11%nat /\
    spinner s' = spinner s /\
    out s' = out (set_priority env s)) \/
   (length (results s') = 11%nat /\
    spinner s' = (spinner s + 1) mod 4 /\
    exists result : D,
      getResult ar (results s') (frequency s) (weights s) = Some result /\
      out s' = out (set_priority env s) ++
               [EPrintResult (results s') result
                  (nth (Z.to_nat (spinner s)) SPINNER "000"%char)])).
Proof.
  intros Hw Hbody. unfold loop_body in Hbody.
  unfold doMeasure in Hbody. rewrite measure_loop_5 in Hbody.
  match type of Hbody with
  | show ar ?t = _ =>
      destruct (show_spec ar t Hw) as [[Hne H]|[Hfull [r [Hget H]]]]
  end; rewrite H in Hbody; injection Hbody as <-;
    cbn [with_results weights results os sleeps iteration out frequency set_priority
           queries spinner] in *.
  - repeat (split; [reflexivity|]). left.
    split; [exact Hne|]. split; reflexivity.
  - repeat (split; [reflexivity|]). right.
    split; [exact Hfull|]. split; [reflexivity|].
    exists r. split; [exact Hget|reflexivity].
Qed.

Lemma set_priority_spins (s : loop_state D) :
  printed_spins (out (set_priority env s)) = printed_spins (out s).
Proof.
  cbn [set_priority out]. rewrite printed_spins_app.
  destruct (realtime_ok env (iteration s)); cbn [printed_spins]; apply app_nil_r.
Qed.

Lemma set_priority_requests (s : loop_state D) :
  priority_requests (out (set_priority env s)) =
  priority_requests (out s) ++
  (if realtime_ok env (iteration s)
   then [REALTIME_PRIORITY_CLASS]
   else [REALTIME_PRIORITY_CLASS; HIGH_PRIORITY_CLASS]).
Proof.
  cbn [set_priority out]. rewrite priority_requests_app.
  destruct (realtime_ok env (iteration s)); reflexivity.
Qed.

(** The state after [n] iterations, with everything the statements below
    say about it. *)
Lemma iterations_account (n : nat) :
  exists s : loop_state D,
    iterations ar env n (start_state ar lm env) = Some s /\
    reachable ar lm env s /\
    iteration s = n /\
    queries (os s) = (10 * n)%nat /\
    sleeps (os s) = (5 * n)%nat /\
    results s = skipn (n - 11) (map (sample_at env) (seq 0 n)) /\
    length (printed_spins (out s)) = (n - 10)%nat /\
    priority_requests (out s) =
    flat_map (fun j => if realtime_ok env j
                       then [REALTIME_PRIORITY_CLASS]
                       else [REALTIME_PRIORITY_CLASS; HIGH_PRIORITY_CLASS])
      (seq 0 n).
Proof.
  induction n as [|n (s & Hit & Hreach & Hcount & Hq & Hsl & Hres & Hpr & Hprio)].
  - exists (start_state ar lm env).
    split; [reflexivity|]. split; [apply reach_start, startup_start_state|].
    unfold start_state. rewrite startup_ok.
    cbn [iteration os queries sleeps results out printed_spins priority_requests].
    repeat split; reflexivity.
  - pose proof (reachable_invariant ar lm env s Hreach) as (Hw & _).
    destruct (loop_body_total ar env s Hw) as [s' Hbody].
    destruct (loop_body_effect s s' Hw Hbody)
      as (_ & _ & Hit' & Hos' & Hres' & Hshow).
    exists s'.
    split; [exact (iterations_snoc ar env n _ s s' Hit Hbody)|].
    split; [exact (reach_step ar lm env s s' Hreach Hbody)|].
    split; [rewrite Hit', Hcount; reflexivity|].
    split; [rewrite Hos'; cbn [queries]; lia|].
    split; [rewrite Hos'; cbn [sleeps]; lia|].
    assert (Hres2 : results s' = skipn (S n - 11) (map (sample_at env) (seq 0 (S n)))).
    { rewrite Hres', Hres, Hq. fold (sample_at env n).
      rewrite seq_S, map_app. cbn [map Nat.add].
      pose proof (push_sample_skipn (map (sample_at env) (seq 0 n)) (sample_at env n)) as Hp.
      rewrite length_map, length_seq in Hp. exact Hp. }
    split; [exact Hres2|].
    assert (Hlen : length (results s') = Nat.min (S n) 11).
    { rewrite Hres2, length_skipn, length_map, length_seq. lia. }
    split.
    + destruct Hshow as [(Hne & _ & Hout)|(Hfull & _ & r & _ & Hout)]; rewrite Hout.
      * rewrite set_priority_spins, Hpr. lia.
      * rewrite printed_spins_app, length_app, set_priority_spins, Hpr.
        cbn [printed_spins length]. lia.
    + rewrite seq_S, flat_map_app. cbn [flat_map Nat.add]. rewrite app_nil_r.
      destruct Hshow as [(_ & _ & Hout)|(_ & _ & r & _ & Hout)]; rewrite Hout.
      * rewrite set_priority_requests, Hprio, Hcount. reflexivity.
      * rewrite priority_requests_app, set_priority_requests, Hprio, Hcount.
        cbn [priority_requests]. rewrite app_nil_r. reflexivity.
Qed.

End LoopMore.

(** X11. After [n] iterations the loop has made exactly [10 n] clock
    queries and [5 n] sleeps, the window holds the last [min n 11]
    samples in the order they were measured (sample [j] being the median of
    the deltas of queries [10 j .. 10 j + 9]), and [n - 10] result lines
    have been printed: none during the first ten iterations, one in every
    iteration from the eleventh on. *)
Theorem loop_accounting {D : Type} (ar : Arith D) (lm : Libm D) (env : Env) (n : nat) :
  exists s : loop_state D,
    iterations ar env n (start_state ar lm env) = Some s /\
    queries (os s) = (10 * n)%nat /\
    sleeps (os s) = (5 * n)%nat /\
    results s = skipn (n - 11) (map (sample_at env) (seq 0 n)) /\
    length (results s) = Nat.min n 11 /\
    length (printed_spins (out s)) = (n - 10)%nat.
Proof.
  destruct (iterations_account ar lm env n)
    as (s & Hit & _ & _ & Hq & Hsl & Hres & Hpr & _).
  exists s. repeat (split; [assumption|]).
  split; [|exact Hpr].
  rewrite Hres, length_skipn, length_map, length_seq. lia.
Qed.

(** X12. In every iteration the loop asks for [REALTIME_PRIORITY_CLASS],
    and it asks for [HIGH_PRIORITY_CLASS] exactly in the iterations in
    which the first request was refused, directly after it. *)
Theorem priority_requests_sequence {D : Type} (ar : Arith D) (lm : Libm D) (env : Env)
    (n : nat) :
  exists s : loop_state D,
    iterations ar env n (start_state ar lm env) = Some s /\
    priority_requests (out s) =
    flat_map (fun j => if realtime_ok env j
                       then [REALTIME_PRIORITY_CLASS]
                       else [REALTIME_PRIORITY_CLASS; HIGH_PRIORITY_CLASS])
      (seq 0 n).
Proof.
  destruct (iterations_account ar lm env n)
    as (s & Hit & _ & _ & _ & _ & _ & _ & Hprio).
  exists s. split; assumption.
Qed.


Section SpinnerFacts.

Context {D : Type} (ar : Arith D) (lm : Libm D) (env : Env).

Lemma spinner_invariant (s : loop_state D) :
  reachable ar lm env s ->
  spinner s = Z.of_nat (length (printed_spins (out s)) mod 4) /\
  printed_spins (out s) =
  map (fun k => nth (k mod 4) SPINNER "000"%char) (seq 0 (length (printed_spins (out s)))).
Proof.
  induction 1 as [s Hstart|s s' Hreach (Hsp & Hspins) Hbody].
  - rewrite startup_ok in Hstart. injection Hstart as <-.
    cbn [spinner out printed_spins length seq map]. split; reflexivity.
  - pose proof (reachable_invariant ar lm env s Hreach) as (Hw & _).
    destruct (loop_body_effect ar env s s' Hw Hbody)
      as (_ & _ & _ & _ & _ & [(_ & Hsp' & Hout)|(_ & Hsp' & r & _ & Hout)]);
      rewrite Hout, Hsp'.
    + rewrite set_priority_spins. split; assumption.
    + rewrite printed_spins_app, set_priority_spins. cbn [printed_spins].
      rewrite length_app. cbn [length]. rewrite Nat.add_1_r.
      split.
      * rewrite Hsp.
        pose proof (Nat.mod_upper_bound (length (printed_spins (out s))) 4 ltac:(lia)).
        pose proof (Nat.mod_upper_bound (S (length (printed_spins (out s)))) 4 ltac:(lia)).
        pose proof (Nat.div_mod_eq (length (printed_spins (out s))) 4).
        pose proof (Nat.div_mod_eq (S (length (printed_spins (out s)))) 4).
        Z.to_euclidean_division_equations. lia.
      * rewrite seq_S, map_app. cbn [map Nat.add]. rewrite <- Hspins.
        rewrite Hsp, Nat2Z.id. reflexivity.
Qed.

End SpinnerFacts.

(** X13. In every state the loop reaches the spinner index is 0, 1, 2 or
    3, so [SPINNER[spinner]] never reads the terminating NUL or beyond;
    the k-th result line printed (counting from 0) carries the character
    [SPINNER[k mod 4]], and the index always equals the number of lines
    printed so far modulo 4. *)
Theorem spinner_cycles {D : Type} (ar : Arith D) (lm : Libm D) (env : Env)
    (s : loop_state D) :
  reachable ar lm env s ->
  0 <= spinner s < 4 /\
  spinner s = Z.of_nat (length (printed_spins (out s)) mod 4) /\
  printed_spins (out s) =
  map (fun k => nth (k mod 4) SPINNER "000"%char) (seq 0 (length (printed_spins (out s)))) /\
  Forall (fun c => In c SPINNER) (printed_spins (out s)).
Proof.
  intros Hreach.
  destruct (spinner_invariant ar lm env s Hreach) as [Hsp Hspins].
  pose proof (Nat.mod_upper_bound (length (printed_spins (out s))) 4 ltac:(lia)) as Hlt.
  split; [lia|]. split; [exact Hsp|]. split; [exact Hspins|].
  rewrite Hspins. apply Forall_forall. intros c Hc.
  apply in_map_iff in Hc. destruct Hc as (k & <- & _).
  apply nth_In. cbn [SPINNER length].
  apply Nat.mod_upper_bound. lia.
Qed.

(** ** The thread under any sequence of console signals *)

Section ScheduleFacts.

Context {D : Type} (ar : Arith D) (lm : Libm D) (env : Env).

(** After the start-up step the weight vector has its 11 entries, and the
    thread is healthy. *)
Lemma step_keeps_health (m : machine D) :
  healthy m /\ (pc m = PStart \/ length (weights (locals m)) = 11%nat) ->
  healthy (step ar lm env m) /\
  (pc (step ar lm env m) = PStart \/ length (weights (locals (step ar lm env m))) = 11%nat).
Proof.
  intros [Hh Hw]. destruct m as [p b s]. unfold healthy in *.
  cbn [pc locals] in *.
  destruct p; cbn [step pc locals at_pc g_bRunning]; try contradiction.
  - rewrite startup_ok. cbn [pc locals weights].
    split; [exact I|]. right. apply normalized_weights_length.
  - destruct Hw as [Hw|Hw]; [discriminate|]. destruct b; cbn [pc locals]; auto.
  - destruct Hw as [Hw|Hw]; [discriminate|]. cbn [pc locals]. auto.
  - destruct Hw as [Hw|Hw]; [discriminate|]. cbn [pc locals]. auto.
  - destruct Hw as [Hw|Hw]; [discriminate|]. cbn [getTimerValue pc locals]. auto.
  - destruct Hw as [Hw|Hw]; [discriminate|]. cbn [pc locals]. auto.
  - destruct Hw as [Hw|Hw]; [discriminate|]. cbn [getTimerValue].
    match goal with |- context [if ?c then _ else _] => destruct c end;
      cbn [pc locals]; auto.
  - destruct Hw as [Hw|Hw]; [discriminate|]. cbn [pc locals]. auto.
  - destruct Hw as [Hw|Hw]; [discriminate|].
    destruct (show_spec ar s Hw) as [[_ H]|[_ [r [_ H]]]]; rewrite H;
      cbn [pc locals weights]; auto.
  - destruct Hw as [Hw|Hw]; [discriminate|]. cbn [pc locals]. auto.
  - destruct Hw as [Hw|Hw]; [discriminate|]. cbn [pc locals]. auto.
Qed.

Lemma run_schedule_keeps_health (fires : nat -> bool) (n i : nat) (m : machine D) :
  healthy m /\ (pc m = PStart \/ length (weights (locals m)) = 11%nat) ->
  healthy (run_schedule ar lm env fires n i m).
Proof.
  revert i m. induction n as [|n IH]; intros i m Hm; [exact (proj1 Hm)|].
  cbn [run_schedule]. apply IH. apply step_keeps_health.
  destruct (fires i); [|exact Hm].
  destruct m as [p b s]. exact Hm.
Qed.

Lemma step_keeps_flag (m : machine D) :
  g_bRunning (step ar lm env m) = g_bRunning m.
Proof.
  destruct m as [p b s].
  destruct p; cbn [step pc locals at_pc g_bRunning getTimerValue];
    try match goal with
        | |- context [match ?x with _ => _ end] => destruct x
        end; reflexivity.
Qed.

Lemma handler_after_signal (m : machine D) :
  g_bRunning m = false -> ctrl_handler m = m.
Proof. destruct m as [p b s]. cbn. intros ->. reflexivity. Qed.

Lemma run_schedule_stopped (fires : nat -> bool) (n i : nat) (m : machine D) :
  g_bRunning m = false -> run_schedule ar lm env fires n i m = steps ar lm env n m.
Proof.
  revert i m. induction n as [|n IH]; intros i m Hm; [reflexivity|].
  cbn [run_schedule steps].
  replace (if fires i then ctrl_handler m else m) with m
    by (destruct (fires i); [rewrite handler_after_signal by exact Hm|]; reflexivity).
  apply IH. rewrite step_keeps_flag. exact Hm.
Qed.

Lemma run_schedule_quiet (fires : nat -> bool) (n i : nat) (m : machine D) :
  (forall j : nat, (i <= j < i + n)%nat -> fires j = false) ->
  run_schedule ar lm env fires n i m = steps ar lm env n m.
Proof.
  revert i m. induction n as [|n IH]; intros i m Hq; [reflexivity|].
  cbn [run_schedule steps]. rewrite (Hq i) by lia.
  apply IH. intros j Hj. apply Hq. lia.
Qed.

Lemma run_schedule_add (fires : nat -> bool) (a b i : nat) (m : machine D) :
  run_schedule ar lm env fires (a + b) i m =
  run_schedule ar lm env fires b (i + a) (run_schedule ar lm env fires a i m).
Proof.
  revert i m. induction a as [|a IH]; intros i m.
  - cbn [Nat.add run_schedule]. rewrite Nat.add_0_r. reflexivity.
  - cbn [Nat.add run_schedule]. rewrite IH. f_equal. lia.
Qed.

End ScheduleFacts.

(** X14. However often and whenever the console control handler fires,
    the thread of [tiimt_main] never leaves by an exception and never reads
    outside a vector: [init_weights] does not throw for [WINDOW_SIZE], and
    no call of [getResult] indexes past the weights. *)
Theorem never_throws_never_out_of_bounds {D : Type} (ar : Arith D) (lm : Libm D) (env : Env)
    (fires : nat -> bool) (n : nat) :
  healthy (run_schedule ar lm env fires n 0 boot) /\
  (forall what, pc (run_schedule ar lm env fires n 0 boot) <> PThrown what) /\
  pc (run_schedule ar lm env fires n 0 boot) <> PUndefined.
Proof.
  assert (H : healthy (run_schedule ar lm env fires n 0 (boot (D := D)))).
  { apply run_schedule_keeps_health. split; [exact I|]. left. reflexivity. }
  split; [exact H|]. unfold healthy in H.
  split; [intros what Hpc|intros Hpc]; rewrite Hpc in H; exact H.
Qed.

(** X15. Signals after the first change nothing: if the handler first
    fires before thread step [t], then whatever it does afterwards the run
    is, from the next thread step on, the run in which it fires once; so
    it too ends with [main] returning [EXIT_SUCCESS]. *)
Theorem repeated_signals_are_ignored {D : Type} (ar : Arith D) (lm : Libm D) (env : Env)
    (fires : nat -> bool) (t fuel : nat) :
  (forall j : nat, (j < t)%nat -> fires j = false) ->
  fires t = true ->
  run_schedule ar lm env fires (t + S fuel) 0 boot =
  run_with_signal ar lm env t (S fuel) /\
  exists enough : nat,
    forall extra : nat,
      main_exit_code (run_schedule ar lm env fires (t + S (enough + extra)) 0 boot) =
      Some EXIT_SUCCESS.
Proof.
  intros Hquiet Hfire.
  assert (Heq : forall k : nat,
             run_schedule ar lm env fires (t + S k) 0 boot =
             run_with_signal ar lm env t (S k)); [intros k|].
  2:{ split; [apply Heq|].
      destruct (run_with_signal_spec ar lm env t) as (enough & s & _ & _ & _ & Hrun).
      exists enough. intros extra. rewrite Heq.
      replace (S (enough + extra)) with (enough + S extra)%nat by lia.
      rewrite Hrun. reflexivity. }
  rewrite run_schedule_add.
  rewrite (run_schedule_quiet ar lm env fires t 0) by (intros j Hj; apply Hquiet; lia).
  cbn [Nat.add run_schedule]. rewrite Hfire.
  rewrite run_schedule_stopped
    by (rewrite step_keeps_flag; destruct (steps ar lm env t boot); reflexivity).
  reflexivity.
Qed.

Lemma repeated_signals_are_ignored_witness :
  (forall j : nat, (j < 3)%nat -> (3 <=? j)%nat = false) /\
  (3 <=? 3)%nat = true /\
  run_schedule real real_libm example_clock (fun j => (3 <=? j)%nat) (3 + 40) 0 boot =
  run_with_signal real real_libm example_clock 3 40.
Proof.
  assert (H1 : forall j : nat, (j < 3)%nat -> (3 <=? j)%nat = false)
    by (intros j Hj; apply Nat.leb_gt; exact Hj).
  assert (H2 : (3 <=? 3)%nat = true) by reflexivity.
  split; [exact H1|]. split; [exact H2|].
  exact (proj1 (repeated_signals_are_ignored real real_libm example_clock
                  (fun j => (3 <=? j)%nat) 3 39 H1 H2)).
Defined.


(** ** A printed line exists *)

Lemma printed_line_exists {D : Type} (o : list (event D)) :
  length (printed_spins o) = 1%nat ->
  exists window result spin, In (EPrintResult window result spin) o.
Proof.
  induction o as [|e o IH]; [discriminate|].
  destruct e as [| |c|window result spin|]; cbn [printed_spins]; intros H;
    try (destruct (IH H) as (w & r & c' & Hin); exists w, r, c'; right; exact Hin).
  exists window, result, spin. left. reflexivity.
Qed.

Lemma dead_clock_prints :
  exists (s : loop_state R) window result spin,
    reachable real real_libm dead_clock s /\
    In (EPrintResult window result spin) (out s).
Proof.
  destruct (iterations_account real real_libm dead_clock 11)
    as (s & _ & Hreach & _ & _ & _ & _ & Hpr & _).
  destruct (printed_line_exists (out s) Hpr) as (window & result & spin & Hin).
  exists s, window, result, spin. split; assumption.
Qed.

(** ** What the loop never changes *)

Lemma locals_fixed {D : Type} (ar : Arith D) (lm : Libm D) (env : Env) (s : loop_state D) :
  reachable ar lm env s ->
  frequency s = getFrequency env /\ weights s = normalized_weights ar lm WINDOW_SIZE.
Proof.
  induction 1 as [s Hstart|s s' Hreach [Hf Hw] Hbody].
  - rewrite startup_ok in Hstart. injection Hstart as <-. split; reflexivity.
  - pose proof (reachable_invariant ar lm env s Hreach) as (Hlen & _).
    destruct (loop_body_effect ar env s s' Hlen Hbody) as (Hw' & Hf' & _).
    rewrite Hw', Hf'. split; assumption.
Qed.

(** X18. The frequency and the weight vector are fixed before the loop
    and never change: in every state the loop reaches, [frequency] is what
    [getFrequency] returned at start-up (-1 when the query failed) and
    [weights] is the vector [init_weights(WINDOW_SIZE)] returned; every
    result line printed was computed with exactly these two. *)
Theorem frequency_and_weights_fixed {D : Type} (ar : Arith D) (lm : Libm D) (env : Env)
    (s : loop_state D) :
  reachable ar lm env s ->
  frequency s = getFrequency env /\
  (qpf env = None -> frequency s = -1) /\
  init_weights ar lm WINDOW_SIZE = Ok (weights s) /\
  (forall window result spin,
      In (EPrintResult window result spin) (out s) ->
      forall ws, init_weights ar lm WINDOW_SIZE = Ok ws ->
                 getResult ar window (getFrequency env) ws = Some result).
Proof.
  intros Hreach.
  destruct (locals_fixed ar lm env s Hreach) as [Hf Hw].
  destruct (reachable_invariant ar lm env s Hreach) as (_ & _ & _ & Hev).
  assert (Hinit : init_weights ar lm WINDOW_SIZE = Ok (weights s)).
  { rewrite Hw. apply init_weights_closed_form; [unfold WINDOW_SIZE; lia|reflexivity]. }
  split; [exact Hf|]. split.
  - intros Hq. rewrite Hf. unfold getFrequency. rewrite Hq. reflexivity.
  - split; [exact Hinit|].
    intros window result spin Hin ws Hws.
    rewrite Hinit in Hws. injection Hws as <-.
    rewrite <- Hf. exact (proj2 (Hev window result spin Hin)).
Qed.

(** X19. When [QueryPerformanceFrequency] fails, the loop divides by the
    sentinel: over the reals every result line printed shows minus 1000
    times the weighted sum of the raw tick deltas of its window, so a
    window of non-negative delays is displayed as a value that is not
    positive. *)
Theorem display_without_frequency (env : Env) (s : loop_state R) :
  qpf env = None ->
  reachable real real_libm env s ->
  forall window result spin,
    In (EPrintResult window result spin) (out s) ->
    result = (- (1000 * weighted_sum real window (weights s)))%R /\
    (Forall (fun x => 0 <= x) window -> (result <= 0)%R).
Proof.
  intros Hq Hreach window result spin Hin.
  destruct (locals_fixed real real_libm env s Hreach) as [Hf Hw].
  destruct (reachable_invariant real real_libm env s Hreach) as (Hlen & _ & _ & Hev).
  destruct (Hev window result spin Hin) as [Hwlen Hget].
  rewrite getResult_in_bounds in Hget by lia. injection Hget as <-.
  unfold compute_spec. rewrite Hf. unfold getFrequency. rewrite Hq.
  cbn [d_of_int d_mul d_div real].
  assert (Heq : (weighted_sum real window (weights s) / -1 * 1000 =
                 - (1000 * weighted_sum real window (weights s)))%R)
    by lra.
  split; [exact Heq|].
  intros Hnonneg. rewrite Heq.
  assert (Hpos : Forall (fun w => (0 <= w)%R) (weights s)).
  { rewrite Hw. eapply Forall_impl;
      [|apply (real_weights_positive WINDOW_SIZE);
        [unfold is_uint32, WINDOW_SIZE; lia|unfold WINDOW_SIZE; lia|reflexivity]].
    intros w Hw0. left. exact Hw0. }
  assert (Hrange : Forall (fun x => 0 <= x <= Z.max 0 (fold_right Z.max 0 window)) window).
  { clear - Hnonneg. induction Hnonneg as [|x l Hx Hl IH]; [constructor|].
    constructor; [cbn [fold_right]; lia|].
    eapply Forall_impl; [|exact IH]. cbn [fold_right]. intros y Hy. lia. }
  pose proof (weighted_sum_bounds 0 _ window (weights s) 0%R ltac:(lia) Hrange Hpos) as [Hlo _].
  unfold weighted_sum. change (d_of_int real 0) with 0%R.
  assert (Hsum0 : (0 <= fold_left Rplus (weights s) 0)%R).
  { clear - Hpos. induction Hpos as [|w l Hw0 Hl IH]; [cbn; lra|].
    cbn [fold_left]. rewrite fold_left_Rplus_acc. lra. }
  lra.
Qed.

Lemma display_without_frequency_witness :
  qpf dead_clock = None /\
  exists (s : loop_state R) window result spin,
    reachable real real_libm dead_clock s /\
    In (EPrintResult window result spin) (out s) /\
    result = (- (1000 * weighted_sum real window (weights s)))%R.
Proof.
  assert (H1 : qpf dead_clock = None) by reflexivity.
  split; [exact H1|].
  destruct dead_clock_prints as (s & window & result & spin & Hreach & Hin).
  exists s, window, result, spin.
  split; [exact Hreach|]. split; [exact Hin|].
  exact (proj1 (display_without_frequency dead_clock s H1 Hreach window result spin Hin)).
Defined.


(** * The numerical claims, in arithmetic that rounds *)

Section RoundingFacts.

Local Open Scope R_scope.

Variables (rnd : R -> R) (u : R).
Hypothesis Hr : rounding rnd u.

Lemma unit_small : 0 <= u /\ u <= / 1000.
Proof. destruct (unit_roundoff rnd u Hr). split; lra. Qed.

Lemma rnd_bounds_pos (x : R) : 0 <= x -> (1 - u) * x <= rnd x <= (1 + u) * x.
Proof.
  intros Hx. pose proof (relative_error rnd u Hr x) as H.
  rewrite (Rabs_right x) in H by lra.
  unfold Rabs in H. destruct (Rcase_abs (rnd x - x)); lra.
Qed.

Lemma rnd_bounds_neg (x : R) : x <= 0 -> (1 + u) * x <= rnd x <= (1 - u) * x.
Proof.
  intros Hx. pose proof (relative_error rnd u Hr x) as H.
  rewrite (Rabs_left1 x) in H by lra.
  unfold Rabs in H. destruct (Rcase_abs (rnd x - x)); lra.
Qed.

Lemma rnd_zero : rnd 0 = 0.
Proof. pose proof (rnd_bounds_pos 0 ltac:(lra)). lra. Qed.

Lemma rnd_nonneg (x : R) : 0 <= x -> 0 <= rnd x.
Proof.
  intros Hx. pose proof (rnd_bounds_pos x Hx). pose proof unit_small. nra.
Qed.

Lemma rnd_pos (x : R) : 0 < x -> 0 < rnd x.
Proof.
  intros Hx. pose proof (rnd_bounds_pos x ltac:(lra)). pose proof unit_small. nra.
Qed.

Lemma rnd_lower (x c : R) : c <= x -> c <= 0 -> (1 + u) * c <= rnd x.
Proof.
  intros Hc Hc0. pose proof unit_small.
  destruct (Rle_lt_dec 0 x) as [Hx|Hx].
  - pose proof (rnd_nonneg x Hx). nra.
  - pose proof (rnd_bounds_neg x ltac:(lra)). nra.
Qed.

End RoundingFacts.

Section ApproxFacts.

Local Open Scope R_scope.

Variables (rnd : R -> R) (u : R).
Hypothesis Hr : rounding rnd u.

Lemma dpow_range (k : nat) : 0 < (1 - u) ^ k <= 1.
Proof.
  pose proof (unit_small rnd u Hr) as [Hu0 Hu1].
  induction k as [|k [IH0 IH1]]; cbn [pow]; [lra|]. nra.
Qed.

Lemma dpow_antitone (j k : nat) : (j <= k)%nat -> (1 - u) ^ k <= (1 - u) ^ j.
Proof.
  intros Hjk. replace k with (j + (k - j))%nat by lia. rewrite pow_add.
  pose proof (dpow_range j). pose proof (dpow_range (k - j)). nra.
Qed.

Lemma dpow_inv (k : nat) : (1 - u) ^ k * / (1 - u) ^ k = 1 /\ 1 <= / (1 - u) ^ k.
Proof.
  pose proof (dpow_range k) as [H0 H1].
  assert (He : (1 - u) ^ k * / (1 - u) ^ k = 1) by (apply Rinv_r; lra).
  split; [exact He|].
  assert (0 < / (1 - u) ^ k) by (apply Rinv_0_lt_compat; exact H0). nra.
Qed.

Lemma approx_refl (y : R) : approx u 0 y y.
Proof. unfold approx. cbn [pow]. lra. Qed.

Lemma approx_nonneg (k : nat) (x y : R) : approx u k x y -> 0 <= y -> 0 <= x.
Proof.
  unfold approx. intros [H _] Hy. pose proof (dpow_range k). nra.
Qed.

Lemma approx_weaken (j k : nat) (x y : R) :
  approx u j x y -> 0 <= y -> (j <= k)%nat -> approx u k x y.
Proof.
  unfold approx, Rdiv. intros [Hlo Hhi] Hy Hjk.
  pose proof (dpow_antitone j k Hjk) as Hd.
  pose proof (dpow_range j) as [Hj0 Hj1]. pose proof (dpow_range k) as [Hk0 Hk1].
  assert (Hi : / (1 - u) ^ j <= / (1 - u) ^ k) by (apply Rinv_le_contravar; lra).
  split; [nra|]. nra.
Qed.

Lemma approx_rnd (k : nat) (x y : R) :
  approx u k x y -> 0 <= y -> approx u (S k) (rnd x) y.
Proof.
  intros Hxy Hy. pose proof (approx_nonneg k x y Hxy Hy) as Hx.
  pose proof (rnd_bounds_pos rnd u Hr x Hx) as [Hlo Hhi].
  pose proof (unit_small rnd u Hr) as [Hu0 Hu1].
  unfold approx, Rdiv in *. destruct Hxy as [Hxlo Hxhi]. cbn [pow].
  pose proof (dpow_range k) as [Hk0 Hk1].
  pose proof (dpow_inv k) as [Hke Hki].
  rewrite Rinv_mult.
  assert (Hd : (1 - u) * / (1 - u) = 1) by (apply Rinv_r; lra).
  assert (Hdi : 1 + u <= / (1 - u)).
  { assert (0 < / (1 - u)) by (apply Rinv_0_lt_compat; lra). nra. }
  split; [nra|].
  assert (H1 : (1 + u) * x <= / (1 - u) * x) by (apply Rmult_le_compat_r; lra).
  assert (H2 : / (1 - u) * x <= / (1 - u) * (y * / (1 - u) ^ k)).
  { apply Rmult_le_compat_l; [|lra].
    assert (0 < / (1 - u)) by (apply Rinv_0_lt_compat; lra). lra. }
  lra.
Qed.

Lemma approx_add (k : nat) (a b c d : R) :
  approx u k a b -> approx u k c d -> approx u k (a + c) (b + d).
Proof. unfold approx, Rdiv. intros [H1 H2] [H3 H4]. split; lra. Qed.

Lemma approx_scale (k : nat) (a b c : R) :
  approx u k a b -> 0 <= c -> approx u k (a * c) (b * c).
Proof. unfold approx, Rdiv. intros [H1 H2] Hc. split; nra. Qed.

Lemma approx_mul (j k : nat) (a b c d : R) :
  approx u j a b -> approx u k c d -> 0 <= b -> 0 <= d ->
  approx u (j + k) (a * c) (b * d).
Proof.
  intros Hab Hcd Hb Hd.
  pose proof (approx_nonneg j a b Hab Hb) as Ha.
  pose proof (approx_nonneg k c d Hcd Hd) as Hc.
  unfold approx, Rdiv in *. destruct Hab as [H1 H2], Hcd as [H3 H4].
  rewrite pow_add, Rinv_mult.
  pose proof (dpow_range j) as [Hj0 Hj1]. pose proof (dpow_range k) as [Hk0 Hk1].
  split.
  - replace ((1 - u) ^ j * (1 - u) ^ k * (b * d))
      with (((1 - u) ^ j * b) * ((1 - u) ^ k * d)) by ring.
    apply Rmult_le_compat; nra.
  - replace (b * d * (/ (1 - u) ^ j * / (1 - u) ^ k))
      with ((b * / (1 - u) ^ j) * (d * / (1 - u) ^ k)) by ring.
    apply Rmult_le_compat; lra.
Qed.

Lemma approx_inv (k : nat) (c d : R) :
  approx u k c d -> 0 < d -> approx u k (/ c) (/ d).
Proof.
  intros Hcd Hd. unfold approx, Rdiv in *. destruct Hcd as [H1 H2].
  pose proof (dpow_range k) as [Hk0 Hk1]. pose proof (dpow_inv k) as [Hke Hki].
  assert (Hc : 0 < c) by nra.
  assert (Hid : 0 < / d) by (apply Rinv_0_lt_compat; exact Hd).
  split.
  - replace ((1 - u) ^ k * / d) with (/ (d * / (1 - u) ^ k))
      by (rewrite Rinv_mult, Rinv_inv; ring).
    apply Rinv_le_contravar; lra.
  - replace (/ d * / (1 - u) ^ k) with (/ ((1 - u) ^ k * d))
      by (rewrite Rinv_mult; ring).
    apply Rinv_le_contravar; [nra|lra].
Qed.

Lemma approx_div (j k : nat) (a b c d : R) :
  approx u j a b -> approx u k c d -> 0 <= b -> 0 < d ->
  approx u (j + k) (a / c) (b / d).
Proof.
  intros Hab Hcd Hb Hd. unfold Rdiv.
  apply approx_mul; try assumption.
  - apply approx_inv; assumption.
  - left. apply Rinv_0_lt_compat. exact Hd.
Qed.

Lemma approx_trans (j k : nat) (x y z : R) :
  approx u j x y -> approx u k y z -> 0 <= z -> approx u (j + k) x z.
Proof.
  intros Hxy Hyz Hz.
  pose proof (approx_nonneg k y z Hyz Hz) as Hy.
  unfold approx, Rdiv in *. destruct Hxy as [H1 H2], Hyz as [H3 H4].
  rewrite pow_add, Rinv_mult.
  pose proof (dpow_range j) as [Hj0 Hj1]. pose proof (dpow_range k) as [Hk0 Hk1].
  pose proof (dpow_inv j) as [Hje Hji].
  split; [nra|].
  assert (y * / (1 - u) ^ j <= z * / (1 - u) ^ k * / (1 - u) ^ j)
    by (apply Rmult_le_compat_r; lra).
  lra.
Qed.


Lemma sum_map_approx {A : Type} (f g : A -> R) (l : list A) (k : nat) :
  (forall x, In x l -> approx u k (f x) (g x)) ->
  approx u k (fold_left Rplus (map f l) 0) (fold_left Rplus (map g l) 0).
Proof.
  induction l as [|x l IH]; intros H.
  - cbn. unfold approx, Rdiv. split; lra.
  - cbn [map fold_left].
    rewrite (fold_left_Rplus_acc (map f l)), (fold_left_Rplus_acc (map g l)).
    apply approx_add.
    + replace (0 + f x) with (f x) by lra. replace (0 + g x) with (g x) by lra.
      apply H. left. reflexivity.
    + apply IH. intros y Hy. apply H. right. exact Hy.
Qed.

(** The sum as the program accumulates it, one rounding per addition. *)
Lemma rounded_sum_approx (l : list R) :
  forall (j : nat) (a b : R),
    approx u j a b -> 0 <= b -> Forall (fun x => 0 <= x) l ->
    approx u (j + length l) (fold_left (d_add (rounded rnd)) l a)
      (b + fold_left Rplus l 0).
Proof.
  induction l as [|x l IH]; intros j a b Hab Hb Hl.
  - cbn [fold_left length]. rewrite Nat.add_0_r, Rplus_0_r. exact Hab.
  - inversion Hl as [|? ? Hx Hl']; subst.
    cbn [fold_left length d_add rounded].
    rewrite (fold_left_Rplus_acc l (0 + x)).
    replace (j + S (length l))%nat with (S j + length l)%nat by lia.
    replace (b + (0 + x + fold_left Rplus l 0)) with ((b + x) + fold_left Rplus l 0) by lra.
    apply IH; [|lra|exact Hl'].
    apply approx_rnd; [|lra].
    apply approx_add; [exact Hab|].
    apply (approx_weaken 0 j); [apply approx_refl|exact Hx|lia].
Qed.

Lemma bernoulli (k : nat) : 1 - INR k * u <= (1 - u) ^ k.
Proof.
  pose proof (unit_small rnd u Hr) as [Hu0 Hu1].
  induction k as [|k IH]; [cbn; lra|].
  rewrite S_INR. cbn [pow]. pose proof (dpow_range k) as [H0 H1].
  pose proof (pos_INR k). nra.
Qed.

Lemma approx_error (k : nat) (x y : R) :
  approx u k x y -> 0 <= y -> INR k * u <= / 2 ->
  Rabs (x - y) <= 2 * INR k * u * y.
Proof.
  intros [Hlo Hhi] Hy Hku. unfold Rdiv in Hhi.
  pose proof (bernoulli k) as Hb. pose proof (dpow_range k) as [H0 H1].
  pose proof (dpow_inv k) as [He Hi]. pose proof (pos_INR k) as Hk.
  pose proof (unit_small rnd u Hr) as [Hu0 Hu1].
  assert (Hinv : / (1 - u) ^ k <= 1 + 2 * INR k * u).
  { apply Rmult_le_reg_l with (r := (1 - u) ^ k); [exact H0|].
    rewrite He. nra. }
  assert (Hup : x <= y * (1 + 2 * INR k * u)).
  { apply Rle_trans with (1 := Hhi). apply Rmult_le_compat_l; assumption. }
  apply Rabs_le. split; nra.
Qed.

End ApproxFacts.

Lemma sum_map_scaled {A : Type} (f : A -> R) (l : list A) (k : R) :
  fold_left Rplus (map (fun x => f x * k)%R l) 0%R =
  (fold_left Rplus (map f l) 0 * k)%R.
Proof.
  induction l as [|x l IH]; cbn [map fold_left]; [lra|].
  rewrite (fold_left_Rplus_acc _ (0 + f x * k)), (fold_left_Rplus_acc _ (0 + f x)), IH. lra.
Qed.

Lemma init_weights_unscaled {D : Type} (ar : Arith D) (lm : Libm D) (n : Z) :
  is_uint32 n -> 1 <= n -> n mod 2 = 1 ->
  init_weights ar lm n =
  Ok (map (fun j : nat =>
             d_mul ar (unscaled_weight ar lm n (Z.of_nat j - n / 2))
               (d_div ar (d_of_int ar 1)
                  (fold_left (d_add ar)
                     (map (fun k : nat => unscaled_weight ar lm n (Z.of_nat k - n / 2))
                        (seq 0 (Z.to_nat n)))
                     (d_of_int ar 0))))
          (seq 0 (Z.to_nat n))).
Proof.
  intros Hrange Hpos Hodd.
  rewrite (init_weights_closed_form ar lm n Hpos Hodd).
  unfold normalized_weights, raw_weights. cbv zeta.
  rewrite map_map.
  assert (Hk : forall j : nat,
             In j (seq 0 (Z.to_nat n)) ->
             kernel_at ar lm
               (d_div ar (d_of_int ar 1)
                  (d_mul ar (sigma_of ar n)
                     (d_sqrt lm (d_mul ar (d_of_int ar 2) (d_PI lm)))))
               (d_mul ar (d_of_int ar 2) (d_pow2 lm (sigma_of ar n))) (n / 2) j =
             unscaled_weight ar lm n (Z.of_nat j - n / 2)).
  { intros j Hj. apply in_seq in Hj.
    unfold kernel_at, unscaled_weight. cbv zeta.
    rewrite offset_from_center by (auto; lia). reflexivity. }
  rewrite (map_ext_in _ _ _ Hk). f_equal.
  apply map_ext_in. intros j Hj. rewrite (Hk j Hj). reflexivity.
Qed.

Lemma div_lower (a x y : R) : (0 < y)%R -> (a * y <= x)%R -> (a <= x / y)%R.
Proof.
  intros Hy H. apply Rmult_le_reg_r with (r := y); [exact Hy|].
  replace (x / y * y)%R with x by (field; lra). exact H.
Qed.

Section RoundedWeights.

Local Open Scope R_scope.

Variables (rnd ex sq pw : R -> R) (u : R).
Hypothesis Hr : rounding rnd u.
Hypothesis Hl : libm_sane ex sq pw.

Lemma sigma_rounded_positive (n : Z) :
  (1 <= n)%Z -> 0 < sigma_of (rounded rnd) n.
Proof.
  intros Hn. apply IZR_le in Hn.
  pose proof (unit_small rnd u Hr) as [Hu0 Hu1].
  unfold sigma_of. cbn [d_of_int d_add d_sub d_div rounded].
  pose proof (rnd_bounds_pos rnd u Hr 1 ltac:(lra)) as [H1lo H1hi].
  pose proof (rnd_bounds_pos rnd u Hr 2 ltac:(lra)) as [H2lo H2hi].
  pose proof (rnd_bounds_pos rnd u Hr 3 ltac:(lra)) as [H3lo H3hi].
  pose proof (rnd_bounds_pos rnd u Hr (IZR n) ltac:(lra)) as [Hnlo _].
  set (r1 := rnd 1) in *. set (r2 := rnd 2) in *. set (r3 := rnd 3) in *.
  set (rn := rnd (IZR n)) in *.
  assert (Hq : 499 / 1000 <= rn / r2).
  { apply div_lower; nra. }
  pose proof (rnd_bounds_pos rnd u Hr (rn / r2) ltac:(lra)) as [HAlo _].
  set (A := rnd (rn / r2)) in *.
  assert (HA : 498 / 1000 <= A) by nra.
  pose proof (rnd_lower rnd u Hr (A - r1) (- (503 / 1000)) ltac:(nra) ltac:(lra)) as HB.
  set (B := rnd (A - r1)) in *.
  assert (HB' : - (504 / 1000) <= B) by nra.
  assert (He : - (1682 / 10000) <= B / r3).
  { apply div_lower; nra. }
  pose proof (rnd_lower rnd u Hr (B / r3) (- (1682 / 10000)) He ltac:(lra)) as HC.
  set (C := rnd (B / r3)) in *.
  assert (HC' : - (1684 / 10000) <= C) by nra.
  assert (Hd : 3326 / 10000 <= r1 / r3).
  { apply div_lower; nra. }
  pose proof (rnd_bounds_pos rnd u Hr (r1 / r3) ltac:(lra)) as [HDlo _].
  set (Dq := rnd (r1 / r3)) in *.
  assert (HD : 3322 / 10000 <= Dq) by nra.
  apply (rnd_pos rnd u Hr). lra.
Qed.

Lemma unscaled_positive (n x : Z) :
  (1 <= n)%Z -> 0 < unscaled_weight (rounded rnd) (rounded_libm rnd ex sq pw) n x.
Proof.
  intros Hn. pose proof (sigma_rounded_positive n Hn) as Hs.
  unfold unscaled_weight. cbv zeta.
  cbn [d_of_int d_mul d_div d_neg d_exp d_sqrt d_pow2 d_PI rounded rounded_libm].
  apply (rnd_pos rnd u Hr). apply Rmult_lt_0_compat; [|apply (ex_positive ex sq pw Hl)].
  apply (rnd_pos rnd u Hr). apply Rdiv_lt_0_compat; [apply (rnd_pos rnd u Hr); lra|].
  apply (rnd_pos rnd u Hr). apply Rmult_lt_0_compat; [exact Hs|].
  apply (sq_positive ex sq pw Hl). apply (rnd_pos rnd u Hr).
  apply Rmult_lt_0_compat; apply (rnd_pos rnd u Hr); [lra|unfold PI_literal; lra].
Qed.

Lemma pw_of_int_monotone (x y : Z) :
  (Z.abs y <= Z.abs x)%Z -> pw (rnd (IZR y)) <= pw (rnd (IZR x)).
Proof.
  intros Hxy.
  assert (Habs : forall z : Z, pw (rnd (IZR z)) = pw (rnd (IZR (Z.abs z)))).
  { intros z. destruct (Z.abs_spec z) as [[_ ->]|[_ ->]]; [reflexivity|].
    rewrite opp_IZR, (rnd_odd rnd u Hr), (pw_even ex sq pw Hl). reflexivity. }
  rewrite (Habs x), (Habs y).
  apply (pw_monotone ex sq pw Hl). split.
  - apply (rnd_nonneg rnd u Hr). apply IZR_le. apply Z.abs_nonneg.
  - apply (rnd_monotone rnd u Hr). apply IZR_le. exact Hxy.
Qed.

Lemma unscaled_monotone (n x y : Z) :
  (1 <= n)%Z -> (Z.abs y <= Z.abs x)%Z ->
  unscaled_weight (rounded rnd) (rounded_libm rnd ex sq pw) n x <=
  unscaled_weight (rounded rnd) (rounded_libm rnd ex sq pw) n y.
Proof.
  intros Hn Hxy. pose proof (sigma_rounded_positive n Hn) as Hs.
  pose proof (pw_of_int_monotone x y Hxy) as Hpw.
  unfold unscaled_weight. cbv zeta.
  cbn [d_of_int d_mul d_div d_neg d_exp d_sqrt d_pow2 d_PI rounded rounded_libm].
  apply (rnd_monotone rnd u Hr). apply Rmult_le_compat_l.
  - left. apply (rnd_pos rnd u Hr).
    apply Rdiv_lt_0_compat; [apply (rnd_pos rnd u Hr); lra|].
    apply (rnd_pos rnd u Hr). apply Rmult_lt_0_compat; [exact Hs|].
    apply (sq_positive ex sq pw Hl). apply (rnd_pos rnd u Hr).
    apply Rmult_lt_0_compat; apply (rnd_pos rnd u Hr); [lra|unfold PI_literal; lra].
  - apply (ex_monotone ex sq pw Hl). apply Ropp_le_contravar.
    apply (rnd_monotone rnd u Hr). unfold Rdiv. apply Rmult_le_compat_r; [|exact Hpw].
    left. apply Rinv_0_lt_compat. apply (rnd_pos rnd u Hr).
    apply Rmult_lt_0_compat; [apply (rnd_pos rnd u Hr); lra|].
    apply (pw_positive ex sq pw Hl). exact Hs.
Qed.

End RoundedWeights.


Section RoundedNormalisation.

Local Open Scope R_scope.

Variables (rnd ex sq pw : R -> R) (u : R).
Hypothesis Hr : rounding rnd u.
Hypothesis Hl : libm_sane ex sq pw.

Variable n : Z.
Hypothesis Hrange : is_uint32 n.
Hypothesis Hpos : (1 <= n)%Z.
Hypothesis Hodd : (n mod 2 = 1)%Z.

Lemma rounded_weights_form :
  init_weights (rounded rnd) (rounded_libm rnd ex sq pw) n =
  Ok (map (fun j : nat =>
             rnd (unscaled_weight (rounded rnd) (rounded_libm rnd ex sq pw) n
                    (Z.of_nat j - n / 2) * rounded_adjust rnd ex sq pw n))
        (seq 0 (Z.to_nat n))).
Proof.
  rewrite (init_weights_unscaled _ _ n Hrange Hpos Hodd). reflexivity.
Qed.

Lemma unscaled_sum_positive : 0 < unscaled_sum rnd ex sq pw n.
Proof.
  unfold unscaled_sum. apply sum_positive.
  - destruct (Z.to_nat n) eqn:E; [lia|discriminate].
  - apply Forall_forall. intros x Hx. apply in_map_iff in Hx.
    destruct Hx as (j & <- & _). apply (unscaled_positive rnd ex sq pw u Hr Hl). exact Hpos.
Qed.

Lemma rounded_total_approx :
  approx u (Z.to_nat n) (rounded_total rnd ex sq pw n) (unscaled_sum rnd ex sq pw n).
Proof.
  unfold rounded_total, unscaled_sum. cbn [d_of_int rounded].
  rewrite (rnd_zero rnd u Hr).
  pose proof (rounded_sum_approx rnd u Hr
                (map (fun k : nat =>
                        unscaled_weight (rounded rnd) (rounded_libm rnd ex sq pw) n
                          (Z.of_nat k - n / 2)) (seq 0 (Z.to_nat n)))
                0%nat 0 0 (approx_refl u 0) ltac:(lra)) as H.
  rewrite length_map, length_seq, Rplus_0_l in H. cbn [Nat.add] in H.
  apply H. apply Forall_forall. intros x Hx. apply in_map_iff in Hx.
  destruct Hx as (j & <- & _). left.
  apply (unscaled_positive rnd ex sq pw u Hr Hl). exact Hpos.
Qed.

Lemma rounded_adjust_approx :
  0 < rounded_adjust rnd ex sq pw n /\
  approx u (Z.to_nat n + 2)
    (rounded_adjust rnd ex sq pw n * unscaled_sum rnd ex sq pw n) 1.
Proof.
  pose proof unscaled_sum_positive as HS.
  pose proof rounded_total_approx as HT.
  assert (HT0 : 0 < rounded_total rnd ex sq pw n).
  { destruct HT as [Hlo _]. pose proof (dpow_range rnd u Hr (Z.to_nat n)). nra. }
  unfold rounded_adjust. cbn [d_div d_of_int rounded].
  assert (H1 : approx u 1 (rnd 1) 1)
    by (apply (approx_rnd rnd u Hr); [apply approx_refl|lra]).
  assert (Hq : approx u (1 + Z.to_nat n) (rnd 1 / rounded_total rnd ex sq pw n)
                 (1 / unscaled_sum rnd ex sq pw n))
    by (apply (approx_div rnd u Hr); [exact H1|exact HT|lra|exact HS]).
  assert (Hinv : 0 < 1 / unscaled_sum rnd ex sq pw n)
    by (apply Rdiv_lt_0_compat; [lra|exact HS]).
  assert (Ha : approx u (S (1 + Z.to_nat n))
                 (rnd (rnd 1 / rounded_total rnd ex sq pw n))
                 (1 / unscaled_sum rnd ex sq pw n))
    by (apply (approx_rnd rnd u Hr); [exact Hq|lra]).
  split.
  - apply (rnd_pos rnd u Hr). apply Rdiv_lt_0_compat; [apply (rnd_pos rnd u Hr); lra|exact HT0].
  - replace (Z.to_nat n + 2)%nat with (S (1 + Z.to_nat n)) by lia.
    pose proof (approx_scale u _ _ _ (unscaled_sum rnd ex sq pw n) Ha ltac:(lra)) as H.
    replace (1 / unscaled_sum rnd ex sq pw n * unscaled_sum rnd ex sq pw n) with 1 in H
      by (field; lra).
    exact H.
Qed.

(** The exact sum of the weights returned is 1 up to [n + 3] roundings,
    and their sum accumulated in the same arithmetic up to [2 n + 3]. *)
Lemma rounded_weights_sum :
  exists ws : list R,
    init_weights (rounded rnd) (rounded_libm rnd ex sq pw) n = Ok ws /\
    length ws = Z.to_nat n /\
    Forall (fun w => 0 < w) ws /\
    approx u (Z.to_nat n + 3) (fold_left Rplus ws 0) 1 /\
    approx u (2 * Z.to_nat n + 3)
      (fold_left (d_add (rounded rnd)) ws (d_of_int (rounded rnd) 0)) 1.
Proof.
  destruct rounded_adjust_approx as [Ha Happrox].
  eexists. split; [apply rounded_weights_form|].
  split; [rewrite length_map, length_seq; reflexivity|].
  assert (Hall : Forall (fun w => 0 < w)
                   (map (fun j : nat =>
                           rnd (unscaled_weight (rounded rnd) (rounded_libm rnd ex sq pw) n
                                  (Z.of_nat j - n / 2) * rounded_adjust rnd ex sq pw n))
                      (seq 0 (Z.to_nat n)))).
  { apply Forall_forall. intros w Hw. apply in_map_iff in Hw.
    destruct Hw as (j & <- & _). apply (rnd_pos rnd u Hr).
    apply Rmult_lt_0_compat; [|exact Ha].
    apply (unscaled_positive rnd ex sq pw u Hr Hl). exact Hpos. }
  split; [exact Hall|].
  assert (Hsum : approx u (Z.to_nat n + 3)
                   (fold_left Rplus
                      (map (fun j : nat =>
                              rnd (unscaled_weight (rounded rnd) (rounded_libm rnd ex sq pw) n
                                     (Z.of_nat j - n / 2) * rounded_adjust rnd ex sq pw n))
                         (seq 0 (Z.to_nat n))) 0) 1).
  { replace (Z.to_nat n + 3)%nat with (1 + (Z.to_nat n + 2))%nat by lia.
    apply (approx_trans rnd u Hr) with
      (y := rounded_adjust rnd ex sq pw n * unscaled_sum rnd ex sq pw n);
      [|exact Happrox|lra].
    rewrite Rmult_comm. unfold unscaled_sum. rewrite <- sum_map_scaled.
    apply sum_map_approx. intros j _.
    apply (approx_rnd rnd u Hr); [apply approx_refl|].
    apply Rmult_le_pos; [|lra]. left.
    apply (unscaled_positive rnd ex sq pw u Hr Hl). exact Hpos. }
  split; [exact Hsum|].
  cbn [d_of_int rounded]. rewrite (rnd_zero rnd u Hr).
  replace (2 * Z.to_nat n + 3)%nat with (Z.to_nat n + (Z.to_nat n + 3))%nat by lia.
  apply (approx_trans rnd u Hr) with (2 := Hsum); [|lra].
  match goal with
  | |- approx u _ (fold_left _ ?l 0) _ =>
      pose proof (rounded_sum_approx rnd u Hr l 0%nat 0 0 (approx_refl u 0) ltac:(lra)) as H
  end.
  rewrite length_map, length_seq, Rplus_0_l in H. cbn [Nat.add] in H.
  apply H. eapply Forall_impl; [|exact Hall]. intros w Hw. lra.
Qed.

(** The weights are positive and ordered by distance from the middle
    index. *)
Lemma rounded_weights_order :
  exists ws : list R,
    init_weights (rounded rnd) (rounded_libm rnd ex sq pw) n = Ok ws /\
    length ws = Z.to_nat n /\
    Forall (fun w => 0 < w) ws /\
    forall i j : nat,
      (i < Z.to_nat n)%nat -> (j < Z.to_nat n)%nat ->
      (Z.abs (Z.of_nat j - n / 2) <= Z.abs (Z.of_nat i - n / 2))%Z ->
      nth i ws 0 <= nth j ws 0.
Proof.
  destruct rounded_weights_sum as (ws & Hok & Hlen & Hall & _).
  exists ws. split; [exact Hok|]. split; [exact Hlen|]. split; [exact Hall|].
  rewrite rounded_weights_form in Hok. injection Hok as <-.
  intros i j Hi Hj Hij. rewrite !nth_map_seq by assumption.
  destruct rounded_adjust_approx as [Ha _].
  apply (rnd_monotone rnd u Hr). apply Rmult_le_compat_r; [lra|].
  apply (unscaled_monotone rnd ex sq pw u Hr Hl); assumption.
Qed.

End RoundedNormalisation.

Lemma inflate_rounding : rounding inflate (/ 1152921504606846976).
Proof.
  unfold inflate. constructor.
  - lra.
  - intros x.
    replace (x * (1 + / 1152921504606846976) - x)%R
      with (/ 1152921504606846976 * x)%R by ring.
    rewrite Rabs_mult, (Rabs_right (/ 1152921504606846976)) by lra. lra.
  - intros x y H. nra.
  - intros x. ring.
Qed.

Lemma cmath_sane : libm_sane exp sqrt (fun x => (x * x)%R).
Proof.
  constructor.
  - apply exp_pos.
  - apply exp_monotone.
  - apply sqrt_lt_R0.
  - intros x. ring.
  - intros x y H. nra.
  - intros x H. nra.
Qed.

Lemma INR_to_nat (n : Z) : 0 <= n -> INR (Z.to_nat n) = IZR n.
Proof. intros H. rewrite INR_IZR_INZ, Z2Nat.id by exact H. reflexivity. Qed.

(** C2. In every arithmetic that rounds each operation with a relative
    error of at most [u <= 2^-53], and whatever [exp], [sqrt] and [pow]
    of <cmath> return within their signs and orders, [init_weights] returns
    for every odd positive [n] in the range of [filterSize] a vector of [n]
    entries, none negative, whose sum differs from 1 by at most
    [2 (n + 3) u] when added exactly and by at most [2 (2 n + 3) u] when
    added in the same arithmetic: below 2e-6 for every size and below
    1e-9 for every size up to 2000000.  Without rounding ([u = 0]) the sum
    is exactly 1. *)
Theorem weights_sum_to_one (rnd ex sq pw : R -> R) (u : R) (n : Z) :
  rounding rnd u -> libm_sane ex sq pw ->
  is_uint32 n -> 0 < n -> Z.odd n = true ->
  exists ws : list R,
    init_weights (rounded rnd) (rounded_libm rnd ex sq pw) n = Ok ws /\
    length ws = Z.to_nat n /\
    Forall (fun w => (0 <= w)%R) ws /\
    (Rabs (fold_left Rplus ws 0 - 1) <= 2 * (IZR n + 3) * u)%R /\
    (Rabs (fold_left (d_add (rounded rnd)) ws (d_of_int (rounded rnd) 0) - 1) <=
     2 * (2 * IZR n + 3) * u)%R /\
    (Rabs (fold_left Rplus ws 0 - 1) <= 1 / 1000000)%R /\
    (Rabs (fold_left (d_add (rounded rnd)) ws (d_of_int (rounded rnd) 0) - 1) <=
     1 / 500000)%R /\
    (n <= 2000000 ->
     (Rabs (fold_left Rplus ws 0 - 1) <= 1 / 1000000000)%R /\
     (Rabs (fold_left (d_add (rounded rnd)) ws (d_of_int (rounded rnd) 0) - 1) <=
      1 / 1000000000)%R) /\
    (u = 0%R -> fold_left Rplus ws 0%R = 1%R).
Proof.
  intros Hr Hl Hrange Hpos Hodd. apply odd_mod_2 in Hodd.
  destruct (rounded_weights_sum rnd ex sq pw u Hr Hl n Hrange ltac:(lia) Hodd)
    as (ws & Hok & Hlen & Hall & Hexact & Hround).
  destruct (unit_roundoff rnd u Hr) as [Hu0 Hu1].
  assert (Hn1 : (1 <= IZR n)%R) by (apply IZR_le; lia).
  assert (Hn2 : (IZR n <= 4294967295)%R)
    by (apply IZR_le; unfold is_uint32 in Hrange; change (2 ^ 32) with 4294967296 in Hrange; lia).
  assert (Hk1 : INR (Z.to_nat n + 3) = (IZR n + 3)%R)
    by (rewrite plus_INR, INR_to_nat by lia; simpl; lra).
  assert (Hk2 : INR (2 * Z.to_nat n + 3) = (2 * IZR n + 3)%R)
    by (rewrite plus_INR, mult_INR, INR_to_nat by lia; simpl; lra).
  assert (Hnu : (IZR n * u <= 4294967295 * / 9007199254740992)%R)
    by (apply Rmult_le_compat; lra).
  pose proof (approx_error rnd u Hr _ _ _ Hexact ltac:(lra)) as He.
  rewrite Hk1 in He. specialize (He ltac:(lra)).
  pose proof (approx_error rnd u Hr _ _ _ Hround ltac:(lra)) as Hf.
  rewrite Hk2 in Hf. specialize (Hf ltac:(lra)).
  exists ws. split; [exact Hok|]. split; [exact Hlen|].
  split; [eapply Forall_impl; [|exact Hall]; intros w Hw; lra|].
  split; [lra|]. split; [lra|].
  split; [lra|]. split; [lra|].
  split.
  - intros Hsmall. apply IZR_le in Hsmall.
    assert (Hnu' : (IZR n * u <= 2000000 * / 9007199254740992)%R)
      by (apply Rmult_le_compat; lra).
    split; lra.
  - intros Hz. subst u.
    assert (Rabs (fold_left Rplus ws 0 - 1) <= 0)%R by lra.
    pose proof (Rabs_pos (fold_left Rplus ws 0 - 1)%R).
    assert (Hab : (Rabs (fold_left Rplus ws 0 - 1) = 0)%R) by lra.
    destruct (Req_dec (fold_left Rplus ws 0 - 1)%R 0%R) as [E|E]; [lra|].
    apply Rabs_no_R0 in E. contradiction.
Qed.

Lemma weights_sum_to_one_witness :
  rounding inflate (/ 1152921504606846976) /\
  libm_sane exp sqrt (fun x => (x * x)%R) /\
  is_uint32 11 /\ 0 < 11 /\ Z.odd 11 = true /\
  exists ws : list R,
    init_weights (rounded inflate) (rounded_libm inflate exp sqrt (fun x => (x * x)%R)) 11 =
    Ok ws /\
    length ws = 11%nat /\
    (Rabs (fold_left Rplus ws 0 - 1) <= 1 / 1000000000)%R.
Proof.
  assert (H1 : is_uint32 11) by (unfold is_uint32; lia).
  assert (H2 : 0 < 11) by lia.
  assert (H3 : Z.odd 11 = true) by reflexivity.
  split; [exact inflate_rounding|]. split; [exact cmath_sane|].
  split; [exact H1|]. split; [exact H2|]. split; [exact H3|].
  destruct (weights_sum_to_one inflate exp sqrt (fun x => (x * x)%R) _ 11
              inflate_rounding cmath_sane H1 H2 H3)
    as (ws & Hok & Hlen & _ & _ & _ & _ & _ & Hsmall & _).
  exists ws. split; [exact Hok|]. split; [exact Hlen|].
  exact (proj1 (Hsmall ltac:(lia))).
Defined.

(** C10. In every arithmetic that rounds monotonically and keeps the
    sign (relative error at most [u <= 2^-53]), with [exp] positive and
    monotone, [init_weights] returns for every odd positive [n] in the
    range of [filterSize] a vector of exactly [n] entries, every one of
    them strictly positive, the entry at the middle index [n / 2] being
    the largest and the entries not increasing from the middle towards
    either end. *)
Theorem weights_positive_unimodal (rnd ex sq pw : R -> R) (u : R) (n : Z) :
  rounding rnd u -> libm_sane ex sq pw ->
  is_uint32 n -> 0 < n -> Z.odd n = true ->
  exists ws : list R,
    init_weights (rounded rnd) (rounded_libm rnd ex sq pw) n = Ok ws /\
    length ws = Z.to_nat n /\
    Forall (fun w => (0 < w)%R) ws /\
    (0 < nth (Z.to_nat (n / 2)) ws 0)%R /\
    (forall i : nat,
        (i < Z.to_nat n)%nat -> (nth i ws 0 <= nth (Z.to_nat (n / 2)) ws 0)%R) /\
    (forall i j : nat,
        (i <= j)%nat -> (j <= Z.to_nat (n / 2))%nat -> (nth i ws 0 <= nth j ws 0)%R) /\
    (forall i j : nat,
        (Z.to_nat (n / 2) <= i)%nat -> (i <= j)%nat -> (j < Z.to_nat n)%nat ->
        (nth j ws 0 <= nth i ws 0)%R).
Proof.
  intros Hr Hl Hrange Hpos Hodd. apply odd_mod_2 in Hodd.
  destruct (rounded_weights_order rnd ex sq pw u Hr Hl n Hrange ltac:(lia) Hodd)
    as (ws & Hok & Hlen & Hall & Hord).
  assert (Hc0 : 0 <= n / 2) by (Z.to_euclidean_division_equations; lia).
  assert (Hc : (Z.to_nat (n / 2) < Z.to_nat n)%nat)
    by (Z.to_euclidean_division_equations; lia).
  exists ws. split; [exact Hok|]. split; [exact Hlen|]. split; [exact Hall|].
  split; [|split; [|split]].
  - apply (proj1 (Forall_forall _ _) Hall). apply nth_In. lia.
  - intros i Hi. apply Hord; [exact Hi|exact Hc|].
    rewrite Z2Nat.id by exact Hc0. lia.
  - intros i j Hij Hj. apply Hord; lia.
  - intros i j Hi Hij Hj. apply Hord; lia.
Qed.

Lemma weights_positive_unimodal_witness :
  rounding inflate (/ 1152921504606846976) /\
  libm_sane exp sqrt (fun x => (x * x)%R) /\
  is_uint32 11 /\ 0 < 11 /\ Z.odd 11 = true /\
  exists ws : list R,
    init_weights (rounded inflate) (rounded_libm inflate exp sqrt (fun x => (x * x)%R)) 11 =
    Ok ws /\
    length ws = 11%nat /\
    (0 < nth 0 ws 0 <= nth 5 ws 0)%R.
Proof.
  assert (H1 : is_uint32 11) by (unfold is_uint32; lia).
  assert (H2 : 0 < 11) by lia.
  assert (H3 : Z.odd 11 = true) by reflexivity.
  split; [exact inflate_rounding|]. split; [exact cmath_sane|].
  split; [exact H1|]. split; [exact H2|]. split; [exact H3|].
  destruct (weights_positive_unimodal inflate exp sqrt (fun x => (x * x)%R) _ 11
              inflate_rounding cmath_sane H1 H2 H3)
    as (ws & Hok & Hlen & Hall & _ & Hmax & _).
  exists ws. split; [exact Hok|]. split; [exact Hlen|]. split.
  - apply (proj1 (Forall_forall _ _) Hall). apply nth_In. rewrite Hlen. simpl. lia.
  - apply (Hmax 0%nat). simpl. lia.
Defined.

(** ** The smoothing filter in arithmetic that rounds *)



Section RoundedFilter.

Local Open Scope R_scope.

Variables (rnd : R -> R) (u : R).
Hypothesis Hr : rounding rnd u.






End RoundedFilter.








(** ** States in which lines have been printed *)

Lemma getResult_only_on_full_window_witness :
  exists (s : loop_state R) (window : list Z) (result : R) (spin : ascii),
    iterations real example_clock 11 (start_state real real_libm example_clock) = Some s /\
    reachable real real_libm example_clock s /\
    In (EPrintResult window result spin) (out s) /\
    Z.of_nat (length window) = WINDOW_SIZE /\
    length window = length (weights s) /\
    getResult real window (frequency s) (weights s) = Some result.
Proof.
  destruct (iterations_account real real_libm example_clock 11)
    as (s & Hit & Hreach & _ & _ & _ & _ & Hpr & _).
  destruct (printed_line_exists (out s) Hpr) as (window & result & spin & Hin).
  exists s, window, result, spin.
  split; [exact Hit|]. split; [exact Hreach|]. split; [exact Hin|].
  destruct (getResult_only_on_full_window real real_libm example_clock s Hreach)
    as (_ & _ & Hev & _).
  exact (Hev window result spin Hin).
Defined.

Lemma spinner_cycles_witness :
  exists s : loop_state R,
    iterations real example_clock 15 (start_state real real_libm example_clock) = Some s /\
    reachable real real_libm example_clock s /\
    spinner s = 1 /\
    printed_spins (out s) = ["/"; "-"; "\"; "|"; "/"]%char.
Proof.
  destruct (iterations_account real real_libm example_clock 15)
    as (s & Hit & Hreach & _ & _ & _ & _ & Hpr & _).
  exists s. split; [exact Hit|]. split; [exact Hreach|].
  destruct (spinner_cycles real real_libm example_clock s Hreach)
    as (_ & Hsp & Hspins & _).
  rewrite Hpr in Hsp, Hspins.
  split; [exact Hsp|exact Hspins].
Defined.

Lemma frequency_and_weights_fixed_witness :
  exists (s : loop_state R) (window : list Z) (result : R) (spin : ascii),
    iterations real dead_clock 11 (start_state real real_libm dead_clock) = Some s /\
    reachable real real_libm dead_clock s /\
    frequency s = -1 /\
    init_weights real real_libm WINDOW_SIZE = Ok (weights s) /\
    In (EPrintResult window result spin) (out s) /\
    getResult real window (-1) (weights s) = Some result.
Proof.
  destruct (iterations_account real real_libm dead_clock 11)
    as (s & Hit & Hreach & _ & _ & _ & _ & Hpr & _).
  destruct (printed_line_exists (out s) Hpr) as (window & result & spin & Hin).
  exists s, window, result, spin.
  split; [exact Hit|]. split; [exact Hreach|].
  destruct (frequency_and_weights_fixed real real_libm dead_clock s Hreach)
    as (_ & Hf & Hw & Hev).
  split; [exact (Hf eq_refl)|]. split; [exact Hw|]. split; [exact Hin|].
  exact (Hev window result spin Hin (weights s) Hw).
Defined.
